(** * Verification of the path and location handling of the leptos router

    Shallow embedding of
    - [src/router/src/matching/resolve_path.rs] (path normalisation, scheme
      detection, path resolution),
    - [src/router/src/location/hash.rs] (hash-mode URL coordinate
      conversions),
    - [src/router/src/location/history.rs] (navigation with its pending slot,
      popstate back detection),
    - [src/router/src/location/mod.rs] ([handle_anchor_click]).

    [UrlContext<C, T>] is a phantom-typed newtype around [T]; the context
    tag carries no data, so a [UrlContext<C, T>] is modelled by its [T].
    Rust [&str] / [String] / [Cow<str>] are modelled as [list ascii]. *)

From Stdlib Require Import Ascii String List Bool Arith ZArith Lia.
Import ListNotations.

(** ** Strings *)

Definition str := list ascii.

(** String literal as a [str]. *)
Definition lit (x : string) : str := list_ascii_of_string x.

Definition slash : ascii := "/"%char.

(** [str::starts_with] for a string pattern. *)
Fixpoint starts_with (s pat : str) {struct pat} : bool :=
  match pat with
  | [] => true
  | p :: pat' =>
      match s with
      | c :: s' => Ascii.eqb p c && starts_with s' pat'
      | [] => false
      end
  end.

(** [str::find] for a string pattern: byte index of the first match. *)
Fixpoint find_from (s pat : str) (i : nat) : option nat :=
  if starts_with s pat then Some i
  else match s with
       | [] => None
       | _ :: s' => find_from s' pat (S i)
       end.

Definition find (s pat : str) : option nat := find_from s pat 0.

(** [str::split_once] for a string pattern: the parts before and after the
    first match. *)
Fixpoint split_once (s pat : str) : option (str * str) :=
  if starts_with s pat then Some ([], skipn (length pat) s)
  else match s with
       | [] => None
       | c :: s' =>
           match split_once s' pat with
           | Some (pre, post) => Some (c :: pre, post)
           | None => None
           end
       end.

(** [str::trim_start_matches(c)] for a single character. *)
Fixpoint trim_start_matches (c : ascii) (s : str) : str :=
  match s with
  | [] => []
  | d :: s' => if Ascii.eqb d c then trim_start_matches c s' else s
  end.

(** [s.chars().take_while(|x| *x == c).count()] *)
Fixpoint take_while_count (c : ascii) (s : str) : nat :=
  match s with
  | [] => 0
  | d :: s' => if Ascii.eqb d c then S (take_while_count c s') else 0
  end.

Definition is_ascii_alnum (c : ascii) : bool :=
  let n := nat_of_ascii c in
  (97 <=? n) && (n <=? 122) || (65 <=? n) && (n <=? 90)
  || (48 <=? n) && (n <=? 57).

(** ** [resolve_path.rs] *)

Definition begins_with_query_or_hash (text : str) : bool :=
  match text with
  | c :: _ => Ascii.eqb c "#"%char || Ascii.eqb c "?"%char
  | [] => false
  end.

Definition normalize (path : str) (omit_slash : bool) : str :=
  let s := trim_start_matches slash path in
  let trim_end := take_while_count slash (rev s) - 1 in
  let s := firstn (length s - trim_end) s in
  if (match s with [] => true | _ => false end) || omit_slash
     || begins_with_query_or_hash s
  then s
  else slash :: s.

Definition has_scheme (path : str) : bool :=
  starts_with path (lit "//")
  || starts_with path (lit "tel:")
  || starts_with path (lit "mailto:")
  || match split_once path (lit "://") with
     | Some (prefix, _) => forallb is_ascii_alnum prefix
     | None => false
     end.

Definition resolve_path (base path : str) (from : option str) : str :=
  if has_scheme path then path
  else
    let base_path := normalize base false in
    let from_path := option_map (fun from => normalize from false) from in
    let result :=
      match from_path with
      | Some from_path =>
          if starts_with path (lit "/") then base_path
          else if negb (match find from_path base_path with
                        | Some 0 => true | _ => false end)
          then base_path ++ from_path
          else from_path
      | None => base_path
      end in
    let result_empty := match result with [] => true | _ => false end in
    let prefix := if result_empty then lit "/" else result in
    prefix ++ normalize path result_empty.

(** ** URLs and the hash-mode coordinate conversions ([hash.rs]) *)

(** [ParamsMap]: the parsed query, as its list of key/value pairs. *)
Definition ParamsMap := list (str * str).

Record Url := mkUrl {
  origin : str;
  path : str;
  search : str;
  search_params : ParamsMap;
  hash : str;
}.

(** The derived [PartialEq] of [Url]: field-wise equality. *)
Definition Url_eq_dec (u v : Url) : {u = v} + {u <> v}.
Proof.
  assert (Hs : forall a b : str, {a = b} + {a <> b})
    by apply (list_eq_dec ascii_dec).
  assert (Hp : forall a b : ParamsMap, {a = b} + {a <> b})
    by (apply list_eq_dec; decide equality).
  decide equality.
Defined.

Definition url_eqb (u v : Url) : bool := if Url_eq_dec u v then true else false.

(** [str::strip_prefix] for a single character. *)
Definition strip_prefix (c : ascii) (s : str) : option str :=
  match s with
  | d :: s' => if Ascii.eqb d c then Some s' else None
  | [] => None
  end.

(** [HashRouter::browser_to_router_url]; it always returns [Ok]. *)
Definition browser_to_router_url (url : Url) : Url :=
  {| origin := origin url;
     path := match strip_prefix "#"%char (hash url) with
             | Some p => p
             | None => lit "/"
             end;
     search := search url;
     search_params := search_params url;
     hash := [] |}.

(** [HashRouter::router_to_browser_url]; it always returns [Ok]. *)
Definition router_to_browser_url (url : Url) : Url :=
  {| origin := origin url;
     path := lit "/";
     search := search url;
     search_params := search_params url;
     hash := lit "#" ++ path url |}.

(** ** Navigation ([history.rs], [hash.rs]: the [navigate] closure of [init],
    [ready_to_complete] and the popstate callback) *)

(** A JavaScript value, represented by its string form. *)
Definition JsValue := str.

(** [State(Option<SendWrapper<JsValue>>)] *)
Definition State := option JsValue.

Record LocationChange := mkLocationChange {
  value : str;
  replace : bool;
  scroll : bool;
  state : State;
}.

(** Receiver side of the [oneshot] channel of a navigation: nothing yet,
    a value sent by [ready_to_complete], or the sender dropped (the
    receiver then resolves to [Err(Canceled)]). *)
Inductive Chan := Waiting | Sent | Dropped.

(** The [async move] block returned by [navigate], spawned by the caller. *)
Record Task := mkTask {
  t_new_url : Url;
  t_loc : LocationChange;
  t_same_path : bool;
}.

(** The router's navigation state.  [pending] is the content of
    [pending_navigation] (the navigation whose sender it holds); [chans] and
    [tasks] are indexed by navigation number; [log] records the calls of
    [complete_navigation] (the history mutation) in order. *)
Record NavState := mkNavState {
  url : Url;
  pending : option nat;
  chans : nat -> Chan;
  tasks : nat -> option Task;
  next_id : nat;
  log : list (nat * LocationChange);
}.

Definition upd {A} (f : nat -> A) (k : nat) (v : A) : nat -> A :=
  fun j => if Nat.eqb j k then v else f j.

(** Dropping a sender: an unsent value can no longer arrive. *)
Definition drop_sender (c : nat -> Chan) (k : nat) : nat -> Chan :=
  match c k with
  | Waiting => upd c k Dropped
  | _ => c
  end.

Definition same_path (curr new_url : Url) : bool :=
  if list_eq_dec ascii_dec (origin curr) (origin new_url) then
    if list_eq_dec ascii_dec (path curr) (path new_url) then true else false
  else false.

Inductive NavEvent :=
  | Navigate (new_url : Url) (loc : LocationChange)
      (** the [navigate] closure is called *)
  | Ready
      (** [ready_to_complete] *)
  | Poll (k : nat)
      (** the executor polls the future of navigation [k] *)
  | Popstate (new_url : Url)
      (** the popstate callback sets the URL signal *).

(** The [navigate] closure: set the URL signal, commit at once on the same
    path, otherwise replace the pending sender (dropping the old one) and
    spawn the waiting future. *)
Definition navigate (s : NavState) (new_url : Url) (loc : LocationChange)
  : NavState :=
  let id := next_id s in
  let sp := same_path (url s) new_url in
  let log' := if sp then log s ++ [(id, loc)] else log s in
  let chans0 := upd (chans s) id Waiting in
  let '(pending', chans') :=
    if sp then (pending s, drop_sender chans0 id)
    else (Some id, match pending s with
                   | Some j => drop_sender chans0 j
                   | None => chans0
                   end) in
  {| url := new_url;
     pending := pending';
     chans := chans';
     tasks := upd (tasks s) id (Some (mkTask new_url loc sp));
     next_id := S id;
     log := log' |}.

(** [ready_to_complete]: take the pending sender and send on it. *)
Definition ready_to_complete (s : NavState) : NavState :=
  match pending s with
  | Some j =>
      {| url := url s; pending := None;
         chans := match chans s j with
                  | Waiting => upd (chans s) j Sent
                  | _ => chans s
                  end;
         tasks := tasks s; next_id := next_id s; log := log s |}
  | None => s
  end.

(** One poll of the future of navigation [k]. *)
Definition poll (s : NavState) (k : nat) : NavState :=
  let finish (committed : bool) (t : Task) :=
    {| url := url s; pending := pending s; chans := chans s;
       tasks := upd (tasks s) k None; next_id := next_id s;
       log := if committed then log s ++ [(k, t_loc t)] else log s |} in
  match tasks s k with
  | None => s
  | Some t =>
      if t_same_path t then finish false t
      else match chans s k with
           | Waiting => s
           | Dropped => finish false t
           | Sent => finish (url_eqb (url s) (t_new_url t)) t
           end
  end.

Definition nav_step (s : NavState) (e : NavEvent) : NavState :=
  match e with
  | Navigate u l => navigate s u l
  | Ready => ready_to_complete s
  | Poll k => poll s k
  | Popstate u =>
      {| url := u; pending := pending s; chans := chans s; tasks := tasks s;
         next_id := next_id s; log := log s |}
  end.

Definition run (s : NavState) (es : list NavEvent) : NavState :=
  fold_left nav_step es s.

(** State right after [new()]: the URL signal holds the current URL and no
    navigation is pending. *)
Definition nav_init (u : Url) : NavState :=
  {| url := u; pending := None; chans := fun _ => Waiting;
     tasks := fun _ => None; next_id := 0; log := [] |}.

(** ** Popstate back detection (the popstate callback of [init]) *)

Inductive Result (T E : Type) :=
  | Ok (v : T)
  | Err (e : E).
Arguments Ok {T E} v.
Arguments Err {T E} e.

Definition option_url_eqb (a b : option Url) : bool :=
  match a, b with
  | Some u, Some v => url_eqb u v
  | None, None => true
  | _, _ => false
  end.

(** [stack.len() == 1 || (stack.len() >= 2 && stack.get(stack.len() - 2) == Some(&new_url))] *)
Definition is_navigating_back (stack : list Url) (new_url : Url) : bool :=
  Nat.eqb (length stack) 1
  || (2 <=? length stack)
     && option_url_eqb (nth_error stack (length stack - 2)) (Some new_url).

Record PopState := mkPopState {
  ps_url : Url;
  path_stack : list Url;
  is_back : bool;
}.

(** The popstate callback, given the result of [Self::current()]. *)
Definition on_popstate (s : PopState) (current : Result Url JsValue)
  : PopState :=
  match current with
  | Ok new_url =>
      {| ps_url := new_url; path_stack := path_stack s;
         is_back := is_navigating_back (path_stack s) new_url |}
  | Err _ => s
  end.

(** ** Anchor click interception ([handle_anchor_click] in [mod.rs]) *)

Record Anchor := mkAnchor {
  a_href : str;                        (** [a.href()], already resolved *)
  a_target : str;                      (** [a.target()] *)
  a_attributes : list (str * str);     (** attribute names and values *)
  a_state_prop : option JsValue;       (** the [state] property; [None] is [undefined] *)
  a_replace_prop : option bool;        (** [a.replace.as_bool()] *)
}.

Inductive Node :=
  | AnchorNode (a : Anchor)
  | OtherNode.

Record MouseEvent := mkMouseEvent {
  default_prevented : bool;
  button : Z;
  meta_key : bool;
  alt_key : bool;
  ctrl_key : bool;
  shift_key : bool;
  composed_path : list Node;
}.

Inductive Effect :=
  | PreventDefault
  | NavigateCall (u : Url) (change : LocationChange).

(** What the handler does: its observable effects and its return value, or
    a panic of one of its [unwrap]s. *)
Inductive Outcome :=
  | Returned (effects : list Effect) (r : Result unit JsValue)
  | Panicked.

Definition has_attribute (a : Anchor) (name : str) : bool :=
  existsb (fun kv => if list_eq_dec ascii_dec (fst kv) name then true else false)
    (a_attributes a).

Definition get_attribute (a : Anchor) (name : str) : option str :=
  option_map snd
    (List.find (fun kv => if list_eq_dec ascii_dec (fst kv) name then true else false)
       (a_attributes a)).

(** [str::split] on a set of single-character separators. *)
Fixpoint split_on (seps : list ascii) (s : str) : list str :=
  match s with
  | [] => [[]]
  | c :: s' =>
      let rest := split_on seps s' in
      if existsb (Ascii.eqb c) seps then [] :: rest
      else match rest with
           | w :: ws => (c :: w) :: ws
           | [] => [[c]]
           end
  end.

(** The loop over [composed_path]: the last anchor found wins. *)
Definition find_anchor (nodes : list Node) : option Anchor :=
  fold_left (fun a n => match n with
                        | AnchorNode el => Some el
                        | OtherNode => a
                        end) nodes None.

Definition is_empty (s : str) : bool :=
  match s with [] => true | _ => false end.

Definition str_eqb (a b : str) : bool :=
  if list_eq_dec ascii_dec a b then true else false.

(** The tokens of the anchor's [rel] attribute, split on space and tab. *)
Definition rel_tokens (a : Anchor) : list str :=
  split_on [" "%char; "009"%char]
    (match get_attribute a (lit "rel") with Some r => r | None => [] end).

(** Number of calls of the navigation callback among the effects. *)
Definition nav_calls (o : Outcome) : nat :=
  match o with
  | Returned effs _ =>
      length (filter (fun e => match e with
                               | NavigateCall _ _ => true
                               | PreventDefault => false
                               end) effs)
  | Panicked => 0
  end.

Section AnchorClick.

(** The [parse_with_base] argument of [handle_anchor_click]. *)
Variable parse_with_base : str -> str -> Result Url JsValue.
(** [UrlContext::unescape_minimal] and [UrlContext::unescape]
    ([js_sys::decode_uri] / [decode_uri_component]). *)
Variable unescape_minimal : str -> str.
Variable unescape : str -> str.

(** The boxed closure returned by [handle_anchor_click], applied to the
    result of [window().location().origin()] and to the event. *)
Definition handle_anchor_click (router_base : option str)
    (win_origin : Result str JsValue) (ev : MouseEvent) : Outcome :=
  let router_base := match router_base with Some b => b | None => [] end in
  match win_origin with
  | Err e => Returned [] (Err e)
  | Ok origin' =>
    if default_prevented ev || negb (Z.eqb (button ev) 0) || meta_key ev
       || alt_key ev || ctrl_key ev || shift_key ev
    then Returned [] (Ok tt)
    else
    match find_anchor (composed_path ev) with
    | None => Returned [] (Ok tt)
    | Some a =>
      let href := a_href a in
      let target := a_target a in
      if negb (is_empty target)
         || is_empty href && negb (has_attribute a (lit "state"))
      then Returned [] (Ok tt)
      else
      if has_attribute a (lit "download")
         || existsb (fun p => str_eqb p (lit "external")) (rel_tokens a)
      then Returned [] (Ok tt)
      else
      match parse_with_base href origin' with
      | Err _ => Panicked
      | Ok u =>
        let path_name := unescape_minimal (path u) in
        if negb (str_eqb (origin u) origin')
           || negb (is_empty router_base) && negb (is_empty path_name)
              && negb (starts_with path_name router_base)
        then Returned [] (Ok tt)
        else
        let to := path_name
                  ++ (if is_empty (search u) then [] else lit "?")
                  ++ unescape (search u) ++ unescape (hash u) in
        let change :=
          {| value := to;
             replace := match a_replace_prop a with
                        | Some b => b | None => false end;
             scroll := negb (has_attribute a (lit "noscroll"))
                       && negb (has_attribute a (lit "data-noscroll"));
             state := a_state_prop a |} in
        Returned [PreventDefault; NavigateCall u change] (Ok tt)
      end
    end
  end.

End AnchorClick.

(** A simple instance of the [parse_with_base] argument, for concrete
    runs: an absolute [href] on the [base] origin is split into that origin
    and the rest as path; anything else gets an empty origin. *)
Definition parse_on_origin (href base : str) : Result Url JsValue :=
  if starts_with href base
  then Ok (mkUrl base (skipn (length base) href) [] [] [])
  else Ok (mkUrl [] href [] [] []).

(** ** Completing a navigation ([complete_navigation] in [hash.rs] and
    [history.rs]) and the router's initial state ([new]) *)

(** [UrlContext::<C, Url>::to_full_path] *)
Definition to_full_path (u : Url) : str :=
  let p := path u in
  let p := if negb (is_empty (search u)) then p ++ lit "?" ++ search u else p in
  if negb (is_empty (hash u))
  then (if starts_with (hash u) (lit "#") then p else p ++ lit "#") ++ hash u
  else p.

(** The call made on [window().history()]: the state ([loc.state], whose
    [to_js_value] is [undefined] for [None]) and the URL. *)
Inductive HistoryCall :=
  | PushState (st : State) (u : str)
  | ReplaceState (st : State) (u : str).

Definition history_call (loc : LocationChange) (u : str) : HistoryCall :=
  if replace loc then ReplaceState (state loc) u else PushState (state loc) u.

(** The end of [complete_navigation]: if [Self::current()] is [Ok], push it
    on the path stack and unset [is_back].  Scrolling is not modelled. *)
Definition record_navigation (s : PopState) (current : Result Url JsValue)
  : PopState :=
  match current with
  | Ok u => {| ps_url := ps_url s; path_stack := path_stack s ++ [u];
               is_back := false |}
  | Err _ => s
  end.

(** [BrowserRouter::complete_navigation]: the history call with [loc.value],
    then the path-stack bookkeeping. *)
Definition browser_complete_navigation (s : PopState) (loc : LocationChange)
    (current : Result Url JsValue) : HistoryCall * PopState :=
  (history_call loc (value loc), record_navigation s current).

Section HashComplete.

(** [UrlContext::parse_with_default_base], applied to [loc.value]. *)
Variable parse_with_default_base : str -> Url.

(** [HashRouter::complete_navigation]: the router URL is parsed, converted
    to browser space, and written as its origin followed by its full path. *)
Definition hash_complete_navigation (s : PopState) (loc : LocationChange)
    (current : Result Url JsValue) : HistoryCall * PopState :=
  let u := router_to_browser_url (parse_with_default_base (value loc)) in
  let u := origin u ++ to_full_path u in
  (history_call loc u, record_navigation s current).

End HashComplete.

(** [new()] of [BrowserRouter] and [HashRouter], given the results of its two
    calls of [Self::current()]: the first one is propagated with [?], the
    second one seeds the path stack ([unwrap_or_default]). *)
Definition router_new (current1 current2 : Result Url JsValue)
  : Result PopState JsValue :=
  match current1 with
  | Err e => Err e
  | Ok u =>
      Ok {| ps_url := u;
            path_stack := match current2 with Ok n => [n] | Err _ => [] end;
            is_back := false |}
  end.

(** ** Definitions used by the proofs *)

(** Dropping the trailing-slash run but one, seen on the reversed string. *)
Definition dedup_rev (r : str) : str := skipn (take_while_count slash r - 1) r.

(** A router-space URL on the test origin with the given path. *)
Definition url_of_path (p : string) : Url :=
  mkUrl (lit "https://leptos.dev") (lit p) [] [] [].

(** The navigation numbers in the history log. *)
Definition ids (s : NavState) : list nat := map fst (log s).

(** Bookkeeping: every navigation number in use is below [next_id]. *)
Definition wf (s : NavState) : Prop :=
  (forall k t, tasks s k = Some t -> k < next_id s)
  /\ (forall x, In x (ids s) -> x < next_id s)
  /\ (forall j, pending s = Some j -> j < next_id s).

(** Navigation [a] has lost its sender: it can never commit. *)
Definition cancelled (a : nat) (s : NavState) : Prop :=
  ~ In a (ids s) /\ a < next_id s /\ chans s a = Dropped /\ pending s <> Some a.

(** Navigation [a] is uncommitted: waiting with its sender in the slot, or
    cancelled. *)
Definition waiting_or_cancelled (a : nat) (s : NavState) : Prop :=
  ~ In a (ids s) /\ a < next_id s
  /\ ((chans s a = Waiting /\ pending s = Some a)
      \/ (chans s a = Dropped /\ pending s <> Some a)).

(** Navigation [b] to [ub] with change [lb], not yet committed; its future
    is still spawned or has finished. *)
Definition uncommitted (b : nat) (ub : Url) (lb : LocationChange)
    (s : NavState) : Prop :=
  ~ In b (ids s) /\ b < next_id s
  /\ (tasks s b = Some (mkTask ub lb false) \/ tasks s b = None).

(** The history log has no repeated navigation number, and a future still
    spawned for a logged navigation is a same-path one (it will not log). *)
Definition nodup_inv (s : NavState) : Prop :=
  wf s /\ NoDup (ids s)
  /\ forall k t, tasks s k = Some t -> In k (ids s) -> t_same_path t = true.

(** * Properties *)

(** ** Path normalisation *)

Module Normalize.


Lemma take_while_count_le (r : str) : take_while_count slash r <= length r.
Proof.
  induction r as [|c r IH]; simpl; [lia|].
  destruct (Ascii.eqb c slash); simpl; lia.
Qed.

Lemma take_while_count_skipn (n : nat) (r : str) :
  n <= take_while_count slash r ->
  take_while_count slash (skipn n r) = take_while_count slash r - n.
Proof.
  revert r; induction n as [|n IH]; intros r H; simpl; [lia|].
  destruct r as [|c r]; simpl in *; [lia|].
  destruct (Ascii.eqb c slash); simpl in *; [apply IH; lia | lia].
Qed.

Lemma dedup_rev_idem (r : str) : dedup_rev (dedup_rev r) = dedup_rev r.
Proof.
  unfold dedup_rev.
  rewrite (take_while_count_skipn (take_while_count slash r - 1) r ltac:(lia)).
  replace (take_while_count slash r - (take_while_count slash r - 1) - 1)
    with 0 by lia.
  reflexivity.
Qed.

(** The trimmed string of [normalize], written with [dedup_rev]. *)
Lemma trim_end_rev (s : str) :
  firstn (length s - (take_while_count slash (rev s) - 1)) s
  = rev (dedup_rev (rev s)).
Proof.
  unfold dedup_rev. rewrite firstn_skipn_rev.
  pose proof (take_while_count_le (rev s)) as H. rewrite length_rev in H.
  f_equal. f_equal. lia.
Qed.

Lemma normalize_eq (p : str) (omit_slash : bool) :
  normalize p omit_slash =
  let s := rev (dedup_rev (rev (trim_start_matches slash p))) in
  if is_empty s || omit_slash || begins_with_query_or_hash s then s
  else slash :: s.
Proof. unfold normalize. rewrite trim_end_rev. reflexivity. Qed.

Lemma trim_start_head (p : str) :
  forall c s, trim_start_matches slash p = c :: s -> c <> slash.
Proof.
  induction p as [|d p IH]; simpl; intros c s H; [discriminate|].
  destruct (Ascii.eqb d slash) eqn:E; [eauto|].
  injection H as <- <-. intros ->. rewrite Ascii.eqb_refl in E. discriminate.
Qed.

Lemma trim_start_id (s : str) :
  (forall c s', s = c :: s' -> c <> slash) -> trim_start_matches slash s = s.
Proof.
  destruct s as [|c s]; simpl; intros H; [reflexivity|].
  destruct (Ascii.eqb c slash) eqn:E; [|reflexivity].
  apply Ascii.eqb_eq in E. exfalso. exact (H c s eq_refl E).
Qed.

(** The trimmed string is a prefix of the original one, with the same first
    character. *)
Lemma dedup_head (s : str) :
  forall c s', s = c :: s' ->
  exists s'', rev (dedup_rev (rev s)) = c :: s''.
Proof.
  intros c s' Hs.
  rewrite <- trim_end_rev.
  pose proof (take_while_count_le (rev s)) as H. rewrite length_rev in H.
  remember (take_while_count slash (rev s)) as t eqn:Ht. clear Ht.
  subst s. simpl length in *.
  destruct (S (length s') - (t - 1)) as [|m] eqn:E; [lia|].
  simpl. eauto.
Qed.

Lemma dedup_nil (s : str) : rev (dedup_rev (rev s)) = [] -> s = [].
Proof.
  destruct s as [|c s]; [reflexivity|].
  intros H. destruct (dedup_head (c :: s) c s eq_refl) as [s'' H'].
  congruence.
Qed.

Lemma trim_start_repeat (n : nat) (s : str) :
  trim_start_matches slash (repeat slash n ++ s) = trim_start_matches slash s.
Proof.
  induction n as [|n IH]; simpl; [reflexivity|].
  exact IH.
Qed.

Lemma take_while_count_repeat (m : nat) (r : str) :
  take_while_count slash (repeat slash m ++ r) = m + take_while_count slash r.
Proof.
  induction m as [|m IH]; simpl; [reflexivity|].
  rewrite IH. reflexivity.
Qed.

Lemma skipn_repeat_app (k m : nat) (r : str) :
  k <= m -> skipn k (repeat slash m ++ r) = repeat slash (m - k) ++ r.
Proof.
  revert m; induction k as [|k IH]; intros m H; simpl.
  - rewrite Nat.sub_0_r. reflexivity.
  - destruct m as [|m]; [lia|]. simpl. apply IH. lia.
Qed.

End Normalize.


(** ** Claim C6: normalisation is idempotent.
    For every path [p], [normalize (normalize p false) false = normalize p false]. *)
Theorem normalize_idempotent (p : str) :
  normalize (normalize p false) false = normalize p false.
Proof.
  rewrite (Normalize.normalize_eq p false). cbv zeta.
  set (s := rev (dedup_rev (rev (trim_start_matches slash p)))).
  assert (Hfix : rev (dedup_rev (rev s)) = s).
  { unfold s. rewrite rev_involutive, Normalize.dedup_rev_idem. reflexivity. }
  assert (Hhead : forall c s', s = c :: s' -> c <> slash).
  { intros c s' Hs.
    destruct (trim_start_matches slash p) as [|d t] eqn:Et.
    - unfold s in Hs. simpl in Hs. discriminate.
    - destruct (Normalize.dedup_head (d :: t) d t eq_refl) as [s'' Hd].
      fold s in Hd. rewrite Hd in Hs. injection Hs as <- _.
      exact (Normalize.trim_start_head p d t Et). }
  destruct (is_empty s || false || begins_with_query_or_hash s) eqn:Ec.
  - rewrite Normalize.normalize_eq. cbv zeta.
    rewrite (Normalize.trim_start_id s Hhead), Hfix, Ec. reflexivity.
  - rewrite Normalize.normalize_eq. cbv zeta.
    change (trim_start_matches slash (slash :: s))
      with (if Ascii.eqb slash slash then trim_start_matches slash s
            else slash :: s).
    rewrite Ascii.eqb_refl.
    rewrite (Normalize.trim_start_id s Hhead), Hfix, Ec. reflexivity.
Qed.

(** ** Claim C7: only the edge slashes are normalised.
    [normalize "foo/bar/" = "/foo/bar/"] and
    [normalize "foo/bar/////" = "/foo/bar/"]; in general, for an interior
    string [mid] that neither starts nor ends with a slash (and does not
    start with [#] or [?]), any run of leading slashes becomes one slash,
    any run of trailing slashes becomes at most one, and [mid] itself,
    with any consecutive slashes inside it, is kept as it is. *)
Theorem normalize_edge_slashes :
  normalize (lit "foo/bar/") false = lit "/foo/bar/"
  /\ normalize (lit "foo/bar/////") false = lit "/foo/bar/"
  /\ (forall (n m : nat) (mid rest : str) (c : ascii),
        mid = c :: rest -> c <> slash -> c <> "#"%char -> c <> "?"%char ->
        hd_error (rev mid) <> Some slash ->
        normalize (repeat slash n ++ mid ++ repeat slash m) false
        = slash :: mid ++ repeat slash (Nat.min m 1)).
Proof.
  split; [reflexivity|]. split; [reflexivity|].
  intros n m mid rest c Hmid Hc Hh Hq Hlast.
  rewrite Normalize.normalize_eq. cbv zeta.
  rewrite Normalize.trim_start_repeat.
  rewrite Normalize.trim_start_id
    by (intros d s' E; subst mid; simpl in E; injection E as <- _; exact Hc).
  unfold dedup_rev.
  rewrite rev_app_distr, rev_repeat, Normalize.take_while_count_repeat.
  assert (Ht : take_while_count slash (rev mid) = 0).
  { destruct (rev mid) as [|d r] eqn:E; [reflexivity|]. simpl.
    destruct (Ascii.eqb d slash) eqn:Ed; [|reflexivity].
    apply Ascii.eqb_eq in Ed. subst d. simpl in Hlast. congruence. }
  rewrite Ht, Nat.add_0_r, Normalize.skipn_repeat_app by lia.
  rewrite rev_app_distr, rev_repeat, rev_involutive.
  replace (m - (m - 1)) with (Nat.min m 1) by lia.
  subst mid. simpl.
  destruct (Ascii.eqb c "#"%char) eqn:E1;
    [apply Ascii.eqb_eq in E1; contradiction|].
  destruct (Ascii.eqb c "?"%char) eqn:E2;
    [apply Ascii.eqb_eq in E2; contradiction|].
  reflexivity.
Qed.

(** ** Scheme detection and path resolution *)

Module Resolve.

Lemma starts_with_app (pat r : str) : starts_with (pat ++ r) pat = true.
Proof.
  induction pat as [|c pat IH]; simpl; [reflexivity|].
  rewrite Ascii.eqb_refl, IH. reflexivity.
Qed.

Lemma alnum_not_colon (c : ascii) :
  is_ascii_alnum c = true -> Ascii.eqb ":"%char c = false.
Proof.
  intros H. destruct (Ascii.eqb ":"%char c) eqn:E; [|reflexivity].
  apply Ascii.eqb_eq in E. subst c. discriminate H.
Qed.

Lemma split_once_alnum (sch rest : str) :
  forallb is_ascii_alnum sch = true ->
  split_once (sch ++ lit "://" ++ rest) (lit "://") = Some (sch, rest).
Proof.
  change (lit "://") with [":"; "/"; "/"]%char.
  induction sch as [|c sch IH]; intros H.
  - simpl. reflexivity.
  - simpl in H. apply andb_prop in H as [Hc Hs].
    cbn [app split_once starts_with].
    rewrite (alnum_not_colon c Hc). cbn [andb].
    simpl app in IH. rewrite (IH Hs). reflexivity.
Qed.

Lemma find_prefix (s pat : str) :
  starts_with s pat = true -> find s pat = Some 0.
Proof.
  intros H. unfold find. destruct s; simpl; rewrite H; reflexivity.
Qed.

End Resolve.

(** ** Claim C8: scheme-qualified paths are returned unchanged.
    A path starting with ["//"], ["tel:"], ["mailto:"] or an alphanumeric
    scheme followed by ["://"] is returned by [resolve_path] as it is, for
    every [base] and [from]; in particular
    [resolve_path base "mailto:a@b.com" from = "mailto:a@b.com"]. *)
Theorem resolve_path_scheme_unchanged (base : str) (from : option str)
  (p : str)
  (Hp : (exists rest, p = lit "//" ++ rest)
        \/ (exists rest, p = lit "tel:" ++ rest)
        \/ (exists rest, p = lit "mailto:" ++ rest)
        \/ (exists sch rest, forallb is_ascii_alnum sch = true
                             /\ p = sch ++ lit "://" ++ rest)) :
  resolve_path base p from = p
  /\ resolve_path base (lit "mailto:a@b.com") from = lit "mailto:a@b.com".
Proof.
  split; [|reflexivity].
  unfold resolve_path.
  assert (H : has_scheme p = true).
  { unfold has_scheme.
    destruct Hp as [[r ->]|[[r ->]|[[r ->]|[sch [r [Hs ->]]]]]].
    - rewrite Resolve.starts_with_app. reflexivity.
    - rewrite Resolve.starts_with_app.
      repeat first [rewrite orb_true_r | rewrite orb_true_l]; reflexivity.
    - rewrite Resolve.starts_with_app.
      repeat first [rewrite orb_true_r | rewrite orb_true_l]; reflexivity.
    - rewrite (Resolve.split_once_alnum sch r Hs), Hs.
      apply orb_true_r. }
  rewrite H. reflexivity.
Qed.

(** ** Claim C9: a path beginning with ["://"] counts as scheme-qualified.
    The empty scheme before ["://"] passes the alphanumeric test vacuously,
    so [resolve_path] returns such a path unchanged for every [base] and
    [from]. *)
Theorem resolve_path_empty_scheme (base : str) (from : option str)
  (rest : str) :
  resolve_path base (lit "://" ++ rest) from = lit "://" ++ rest.
Proof.
  unfold resolve_path.
  assert (H : has_scheme (lit "://" ++ rest) = true).
  { unfold has_scheme.
    pose proof (Resolve.split_once_alnum [] rest eq_refl) as Hs.
    rewrite app_nil_l in Hs. rewrite Hs.
    apply orb_true_r. }
  rewrite H. reflexivity.
Qed.

(** ** Claim C2 (as stated): [resolve_path "/app" "x" (Some "/app/y")] is
    ["/app/x"].  It is not: the code returns ["/app/y/x"]. *)
Lemma resolve_path_app_counterexample :
  resolve_path (lit "/app") (lit "x") (Some (lit "/app/y")) <> lit "/app/x".
Proof. vm_compute. discriminate. Qed.

(** ** Claim C2 (amended): a relative path resolves under [from].
    [resolve_path "/app" "x" (Some "/app/y")] returns ["/app/y/x"]: when the
    normalised [from] is non-empty and starts with the normalised [base], and
    [path] has no scheme and no leading slash, the result is the normalised
    [from] followed by the normalised [path]. *)
Theorem resolve_path_relative_under_from (base p from : str)
  (Hscheme : has_scheme p = false)
  (Hrel : starts_with p (lit "/") = false)
  (Hbase : starts_with (normalize from false) (normalize base false) = true)
  (Hne : normalize from false <> []) :
  resolve_path base p (Some from) = normalize from false ++ normalize p false
  /\ resolve_path (lit "/app") (lit "x") (Some (lit "/app/y")) = lit "/app/y/x".
Proof.
  split; [|reflexivity].
  unfold resolve_path. rewrite Hscheme. simpl option_map. rewrite Hrel.
  rewrite (Resolve.find_prefix _ _ Hbase). simpl negb. cbv iota.
  destruct (normalize from false) as [|c r]; [contradiction|].
  reflexivity.
Qed.

(** ** Hash-mode coordinate conversions *)

(** Claim C3 (as stated): the round trip through browser space returns
    every router-space URL unchanged.  A router-space URL with a hash loses
    it: [router_to_browser_url] overwrites the hash with the path. *)
Lemma hash_roundtrip_counterexample :
  let u := mkUrl (lit "https://leptos.dev") (lit "/foo") [] [] (lit "#top") in
  browser_to_router_url (router_to_browser_url u) <> u.
Proof. vm_compute. discriminate. Qed.

(** ** Claim C3 (amended): the hash-mode round trip keeps all but the hash.
    [router_to_browser_url] moves the path into the fragment
    ([hash = "#" ++ path]) and fixes the browser path to ["/"];
    [browser_to_router_url] moves it back.  The round trip returns the URL
    with its hash cleared, so it returns every router-space URL with an
    empty hash unchanged. *)
Theorem hash_roundtrip_clears_hash (u : Url) :
  browser_to_router_url (router_to_browser_url u)
  = {| origin := origin u; path := path u; search := search u;
       search_params := search_params u; hash := [] |}
  /\ path (router_to_browser_url u) = lit "/"
  /\ hash (router_to_browser_url u) = lit "#" ++ path u
  /\ (hash u = [] -> browser_to_router_url (router_to_browser_url u) = u).
Proof.
  destruct u as [o p s sp h]. simpl.
  split; [reflexivity|]. split; [reflexivity|]. split; [reflexivity|].
  intros ->. reflexivity.
Qed.

(** ** Claim C10: a browser URL without a ['#']-prefixed hash maps to the
    root.  If the hash is empty or does not start with ['#'],
    [browser_to_router_url] returns the URL with path ["/"] and an empty hash,
    every other field unchanged. *)
Theorem browser_to_router_no_fragment (u : Url)
  (Hh : hash u = [] \/ exists c rest, hash u = c :: rest /\ c <> "#"%char) :
  browser_to_router_url u
  = {| origin := origin u; path := lit "/"; search := search u;
       search_params := search_params u; hash := [] |}.
Proof.
  unfold browser_to_router_url.
  destruct Hh as [Hh | [c [rest [Hh Hc]]]]; rewrite Hh; simpl; [reflexivity|].
  destruct (Ascii.eqb c "#"%char) eqn:E; [|reflexivity].
  apply Ascii.eqb_eq in E. contradiction.
Qed.

(** ** Popstate back detection *)

Lemma url_eqb_spec (u v : Url) : url_eqb u v = true <-> u = v.
Proof.
  unfold url_eqb. destruct (Url_eq_dec u v); split; congruence.
Qed.


(** ** Claim C4: classification of a popstate as a back navigation.
    After the popstate callback receives [new_url], [is_back] is true exactly
    when the path stack holds one entry or its second-to-last entry equals
    [new_url]; for the stack [/a, /b, /c] it is true for [/b] and false for
    [/a] and [/d]; for every stack of two or more entries it is false for a
    URL equal to neither of the last two entries. *)
Theorem popstate_is_back_spec (s : PopState) (new_url : Url) :
  (is_back (on_popstate s (Ok new_url)) = true
   <-> length (path_stack s) = 1
       \/ nth_error (path_stack s) (length (path_stack s) - 2) = Some new_url)
  /\ (2 <= length (path_stack s) ->
      nth_error (path_stack s) (length (path_stack s) - 1) <> Some new_url ->
      nth_error (path_stack s) (length (path_stack s) - 2) <> Some new_url ->
      is_back (on_popstate s (Ok new_url)) = false)
  /\ (let st := map url_of_path ["/a"; "/b"; "/c"]%string in
      is_navigating_back st (url_of_path "/b") = true
      /\ is_navigating_back st (url_of_path "/a") = false
      /\ is_navigating_back st (url_of_path "/d") = false).
Proof.
  simpl is_back. unfold is_navigating_back.
  set (n := length (path_stack s)).
  assert (Hnth : option_url_eqb (nth_error (path_stack s) (n - 2)) (Some new_url)
                 = true <-> nth_error (path_stack s) (n - 2) = Some new_url).
  { destruct (nth_error (path_stack s) (n - 2)) as [v|]; simpl;
      [rewrite url_eqb_spec; split; congruence | split; discriminate]. }
  split; [|split].
  - rewrite orb_true_iff, andb_true_iff, Nat.eqb_eq, Nat.leb_le, Hnth.
    split.
    + intros [H | [_ H]]; auto.
    + intros [H | H]; [auto|].
      destruct (Nat.eq_dec n 1) as [E|E]; [left; exact E|right].
      split; [|exact H].
      assert (L : n - 2 < n).
      { apply (proj1 (nth_error_Some (path_stack s) (n - 2))).
        rewrite H. discriminate. }
      lia.
  - intros H2 _ Hne.
    apply not_true_is_false. rewrite orb_true_iff, andb_true_iff, Nat.eqb_eq, Hnth.
    intros [H | [_ H]]; [lia | contradiction].
  - vm_compute. repeat split.
Qed.

(** ** Anchor click interception *)

(** Claim C5 (as stated): a plain primary-button click on a same-origin
    anchor whose path starts with the router base calls the navigation
    callback once.  An anchor with a [download] attribute meets all of this
    and is left to the browser. *)
Lemma anchor_click_download_counterexample :
  let a := mkAnchor (lit "https://leptos.dev/app/x") []
             [(lit "download", [])] None None in
  let ev := mkMouseEvent false 0 false false false false [AnchorNode a] in
  handle_anchor_click parse_on_origin (fun x => x) (fun x => x)
    (Some (lit "/app")) (Ok (lit "https://leptos.dev")) ev
  = Returned [] (Ok tt)
  /\ nav_calls (handle_anchor_click parse_on_origin (fun x => x) (fun x => x)
       (Some (lit "/app")) (Ok (lit "https://leptos.dev")) ev) <> 1.
Proof. vm_compute. split; [reflexivity | discriminate]. Qed.

Lemma existsb_str_eqb_false (w : str) (l : list str) :
  ~ In w l -> existsb (fun p => str_eqb p w) l = false.
Proof.
  intros H. apply not_true_is_false. rewrite existsb_exists.
  intros [x [Hx Heq]]. unfold str_eqb in Heq.
  destruct (list_eq_dec ascii_dec x w); [subst; contradiction | discriminate].
Qed.

(** ** Claim C5 (amended): when a click is handed to the router.
    The handler never calls the navigation callback for a click with a
    meta/ctrl/shift/alt modifier, nor for a click whose anchor has a
    non-empty [target].  For a primary-button click with no modifier, not
    already default-prevented, on an anchor with an [href] (or a [state]
    attribute), without a [download] attribute or a [rel] token [external],
    whose resolved URL has the document's origin and whose (unescaped) path
    starts with the router base (or no base is set), it calls
    [prevent_default] and then the navigation callback, exactly once. *)
Theorem anchor_click_interception
  (parse_with_base : str -> str -> Result Url JsValue)
  (unescape_minimal unescape : str -> str)
  (router_base : option str) (win_origin : Result str JsValue)
  (ev : MouseEvent) :
  (meta_key ev = true \/ ctrl_key ev = true \/ shift_key ev = true
   \/ alt_key ev = true ->
   nav_calls (handle_anchor_click parse_with_base unescape_minimal unescape
                router_base win_origin ev) = 0)
  /\ (forall a, find_anchor (composed_path ev) = Some a -> a_target a <> [] ->
      nav_calls (handle_anchor_click parse_with_base unescape_minimal unescape
                   router_base win_origin ev) = 0)
  /\ (forall o a u,
      win_origin = Ok o ->
      default_prevented ev = false -> button ev = 0%Z ->
      meta_key ev = false -> alt_key ev = false ->
      ctrl_key ev = false -> shift_key ev = false ->
      find_anchor (composed_path ev) = Some a ->
      a_target a = [] ->
      (a_href a <> [] \/ has_attribute a (lit "state") = true) ->
      has_attribute a (lit "download") = false ->
      ~ In (lit "external") (rel_tokens a) ->
      parse_with_base (a_href a) o = Ok u ->
      origin u = o ->
      (router_base = None \/ exists b, router_base = Some b
         /\ starts_with (unescape_minimal (path u)) b = true) ->
      exists change,
        handle_anchor_click parse_with_base unescape_minimal unescape
          router_base win_origin ev
        = Returned [PreventDefault; NavigateCall u change] (Ok tt)).
Proof.
  split; [|split].
  - intros Hmod. unfold handle_anchor_click.
    destruct win_origin as [o|e]; [|reflexivity].
    replace (default_prevented ev || negb (button ev =? 0)%Z || meta_key ev
             || alt_key ev || ctrl_key ev || shift_key ev) with true
      by (destruct Hmod as [H|[H|[H|H]]]; rewrite H;
          repeat first [rewrite orb_true_r | rewrite orb_true_l]; reflexivity).
    reflexivity.
  - intros a Ha Ht. unfold handle_anchor_click.
    destruct win_origin as [o|e]; [|reflexivity].
    destruct (default_prevented ev || negb (button ev =? 0)%Z || meta_key ev
              || alt_key ev || ctrl_key ev || shift_key ev); [reflexivity|].
    rewrite Ha.
    destruct (a_target a) as [|c t] eqn:Et; [contradiction|].
    reflexivity.
  - intros o a u Ho Hdp Hb Hm Hal Hc Hs Ha Ht Hhref Hdl Hrel Hp Hou Hbase.
    unfold handle_anchor_click. rewrite Ho, Hdp, Hb, Hm, Hal, Hc, Hs.
    cbn [orb negb Z.eqb]. rewrite Ha, Ht. cbn [is_empty negb orb].
    replace (is_empty (a_href a) && negb (has_attribute a (lit "state")))
      with false
      by (destruct Hhref as [H|H];
          [destruct (a_href a); [contradiction|reflexivity]
          | rewrite H, andb_false_r; reflexivity]).
    rewrite Hdl, (existsb_str_eqb_false _ _ Hrel). cbn [orb].
    rewrite Hp, Hou.
    unfold str_eqb at 1. destruct (list_eq_dec ascii_dec o o) as [_|n];
      [|contradiction n; reflexivity].
    cbn [negb orb].
    destruct Hbase as [-> | [b [-> Hsw]]].
    + cbn [is_empty negb andb]. eexists. reflexivity.
    + rewrite Hsw. rewrite !andb_false_r. eexists. reflexivity.
Qed.

(** ** Navigation and its pending slot *)

Module Nav.


Lemma run_app (s : NavState) (es1 es2 : list NavEvent) :
  run s (es1 ++ es2) = run (run s es1) es2.
Proof. unfold run. apply fold_left_app. Qed.

Lemma run_cons (s : NavState) (e : NavEvent) (es : list NavEvent) :
  run s (e :: es) = run (nav_step s e) es.
Proof. reflexivity. Qed.

Lemma upd_eq {A} (f : nat -> A) k v : upd f k v k = v.
Proof. unfold upd. rewrite Nat.eqb_refl. reflexivity. Qed.

Lemma upd_neq {A} (f : nat -> A) k j v : j <> k -> upd f k v j = f j.
Proof. intros H. unfold upd. apply Nat.eqb_neq in H. rewrite H. reflexivity. Qed.

Lemma drop_sender_neq (c : nat -> Chan) k j : j <> k -> drop_sender c k j = c j.
Proof.
  intros H. unfold drop_sender. destruct (c k); try reflexivity.
  apply upd_neq; exact H.
Qed.

Lemma drop_sender_not_sent (c : nat -> Chan) k j :
  drop_sender c k j = Sent -> c j = Sent.
Proof.
  unfold drop_sender. destruct (c k) eqn:E; try tauto.
  unfold upd. destruct (Nat.eqb j k); [discriminate | tauto].
Qed.

(** What one step appends to the history log. *)
Lemma log_step (s : NavState) (e : NavEvent) :
  log (nav_step s e) = log s
  \/ (exists u l, e = Navigate u l /\ same_path (url s) u = true
                  /\ log (nav_step s e) = log s ++ [(next_id s, l)])
  \/ (exists k t, e = Poll k /\ tasks s k = Some t /\ t_same_path t = false
                  /\ chans s k = Sent /\ url_eqb (url s) (t_new_url t) = true
                  /\ log (nav_step s e) = log s ++ [(k, t_loc t)]).
Proof.
  destruct e as [u l | | k | u]; simpl.
  - unfold navigate. destruct (same_path (url s) u) eqn:Esp.
    + right; left. exists u, l. simpl. auto.
    + left. destruct (pending s); reflexivity.
  - left. unfold ready_to_complete. destruct (pending s); reflexivity.
  - unfold poll. destruct (tasks s k) as [t|] eqn:Et; [|left; reflexivity].
    destruct (t_same_path t) eqn:Es; [left; reflexivity|].
    destruct (chans s k) eqn:Ec; try (left; reflexivity).
    destruct (url_eqb (url s) (t_new_url t)) eqn:Eu; [|left; reflexivity].
    right; right. exists k, t. simpl. auto 7.
  - left. reflexivity.
Qed.

Lemma next_id_step (s : NavState) (e : NavEvent) :
  next_id (nav_step s e) = next_id s
  \/ (exists u l, e = Navigate u l /\ next_id (nav_step s e) = S (next_id s)).
Proof.
  destruct e as [u l | | k | u]; simpl.
  - right. exists u, l. split; [reflexivity|]. unfold navigate.
    destruct (same_path (url s) u), (pending s); reflexivity.
  - left. unfold ready_to_complete. destruct (pending s); reflexivity.
  - left. unfold poll. destruct (tasks s k) as [t|]; [|reflexivity].
    destruct (t_same_path t); [reflexivity|].
    destruct (chans s k); reflexivity.
  - left. reflexivity.
Qed.

(** Only [ready_to_complete] sends, and only on the pending sender. *)
Lemma chans_step_sent (s : NavState) (e : NavEvent) (k : nat) :
  chans (nav_step s e) k = Sent ->
  chans s k = Sent \/ (e = Ready /\ pending s = Some k).
Proof.
  destruct e as [u l | | j | u]; simpl.
  - unfold navigate. intros H.
    destruct (same_path (url s) u); [|destruct (pending s) as [j|]]; simpl in H;
      repeat match goal with
             | H : drop_sender _ _ _ = Sent |- _ => apply drop_sender_not_sent in H
             end;
      unfold upd in H; destruct (Nat.eqb k (next_id s)); auto; discriminate.
  - unfold ready_to_complete. destruct (pending s) as [j|] eqn:Ep; [|auto].
    simpl. destruct (chans s j) eqn:Ec; auto.
    unfold upd. destruct (Nat.eqb k j) eqn:Ek; auto.
    apply Nat.eqb_eq in Ek. subst. auto.
  - unfold poll. destruct (tasks s j) as [t|]; [|auto].
    destruct (t_same_path t); [simpl; auto|].
    destruct (chans s j); simpl; auto.
  - auto.
Qed.


Lemma wf_init (u : Url) : wf (nav_init u).
Proof. repeat split; simpl; intros; try discriminate; contradiction. Qed.

Lemma tasks_step (s : NavState) (e : NavEvent) (k : nat) (t : Task) :
  tasks (nav_step s e) k = Some t -> tasks s k = Some t \/ k = next_id s.
Proof.
  destruct e as [u l | | j | u]; simpl.
  - unfold navigate.
    destruct (same_path (url s) u), (pending s); simpl;
      unfold upd; destruct (Nat.eqb k (next_id s)) eqn:E;
      intros; try apply Nat.eqb_eq in E; auto.
  - unfold ready_to_complete. destruct (pending s); simpl; auto.
  - unfold poll. destruct (tasks s j) as [t'|]; [|auto].
    destruct (t_same_path t'); [|destruct (chans s j)]; simpl; auto;
      unfold upd; destruct (Nat.eqb k j); auto; discriminate.
  - auto.
Qed.

Lemma pending_step (s : NavState) (e : NavEvent) (j : nat) :
  pending (nav_step s e) = Some j -> pending s = Some j \/ j = next_id s.
Proof.
  destruct e as [u l | | k | u]; simpl.
  - unfold navigate.
    destruct (same_path (url s) u), (pending s); simpl; intros H;
      try discriminate; try (injection H as <-); auto.
  - unfold ready_to_complete. intros H.
    destruct (pending s) eqn:E; simpl in H; congruence.
  - unfold poll. destruct (tasks s k) as [t'|]; [|auto].
    destruct (t_same_path t'); [|destruct (chans s k)]; simpl; auto.
  - auto.
Qed.

Lemma wf_step (s : NavState) (e : NavEvent) : wf s -> wf (nav_step s e).
Proof.
  intros (Ht & Hl & Hp).
  assert (Hn : next_id s <= next_id (nav_step s e)).
  { destruct (next_id_step s e) as [E | (u & l & _ & E)]; rewrite E; lia. }
  split; [|split].
  - intros k t H. destruct (tasks_step s e k t H) as [H' | ->].
    + specialize (Ht k t H'). lia.
    + destruct (next_id_step s e) as [E | (u & l & -> & E)]; [|lia].
      (* only [navigate] creates a task *)
      destruct e as [u l | | j | u]; simpl in *.
      * unfold navigate in E.
        destruct (same_path (url s) u), (pending s); simpl in E; lia.
      * unfold ready_to_complete in H.
        destruct (pending s); simpl in H; apply Ht in H; lia.
      * unfold poll in H. destruct (tasks s j) as [t'|] eqn:Ej; [|apply Ht in H; lia].
        destruct (t_same_path t'); [|destruct (chans s j)]; simpl in H;
          try (apply Ht in H; lia);
          unfold upd in H; destruct (Nat.eqb _ _); try discriminate;
          apply Ht in H; lia.
      * apply Ht in H. lia.
  - intros x Hx. unfold ids in Hx.
    destruct (log_step s e) as [E | [(u & l & -> & _ & E) | (k & t & -> & Hk & _ & _ & _ & E)]];
      rewrite E in Hx.
    + specialize (Hl x Hx). lia.
    + rewrite map_app, in_app_iff in Hx. simpl in Hx.
      destruct Hx as [Hx | [Hx | []]].
      * specialize (Hl x Hx). lia.
      * subst x. simpl. unfold navigate. destruct (same_path (url s) u), (pending s); simpl; lia.
    + rewrite map_app, in_app_iff in Hx. simpl in Hx.
      destruct Hx as [Hx | [Hx | []]].
      * specialize (Hl x Hx). lia.
      * subst x. specialize (Ht k t Hk). lia.
  - intros j H. destruct (pending_step s e j H) as [H' | ->].
    + specialize (Hp j H'). lia.
    + destruct (next_id_step s e) as [E | (u & l & -> & E)]; [|rewrite E; lia].
      exfalso.
      assert (Hns : pending s <> Some (next_id s))
        by (intro X; apply Hp in X; lia).
      destruct e as [u l | | k | u]; simpl in *.
      * unfold navigate in E.
        destruct (same_path (url s) u), (pending s); simpl in E; lia.
      * unfold ready_to_complete in H.
        destruct (pending s) eqn:Ep; simpl in H; congruence.
      * unfold poll in H. destruct (tasks s k) as [t'|]; [|congruence].
        destruct (t_same_path t'); [|destruct (chans s k)]; simpl in H;
          congruence.
      * congruence.
Qed.

Lemma wf_run (s : NavState) (es : list NavEvent) : wf s -> wf (run s es).
Proof.
  revert s; induction es as [|e es IH]; intros s H; [exact H|].
  rewrite run_cons. apply IH, wf_step, H.
Qed.

End Nav.

(** ** Cancellation of a pending navigation *)

Module Cancel.
Import Nav.

Lemma next_id_le (s : NavState) (e : NavEvent) :
  next_id s <= next_id (nav_step s e).
Proof. destruct (next_id_step s e) as [E | (u & l & _ & E)]; rewrite E; lia. Qed.

(** A navigation whose channel never received a value gets no commit. *)
Lemma no_new_commit (s : NavState) (e : NavEvent) (a : nat) :
  ~ In a (ids s) -> a < next_id s -> chans s a <> Sent ->
  ~ In a (ids (nav_step s e)).
Proof.
  intros Hn Hlt Hc. unfold ids.
  destruct (log_step s e) as [E | [(u & l & _ & _ & E) | (k & t & _ & _ & _ & Hk & _ & E)]];
    rewrite E; [exact Hn| |];
    rewrite map_app, in_app_iff; simpl; intros [H | [H | []]];
    try (apply Hn; exact H).
  - lia.
  - subst k. contradiction.
Qed.

Lemma dropped_step (s : NavState) (e : NavEvent) (a : nat) :
  a < next_id s -> chans s a = Dropped -> chans (nav_step s e) a = Dropped.
Proof.
  intros Hlt Hd. destruct e as [u l | | k | u]; simpl.
  - unfold navigate.
    assert (H0 : upd (chans s) (next_id s) Waiting a = Dropped)
      by (rewrite upd_neq by lia; exact Hd).
    assert (Hdrop : forall j, drop_sender (upd (chans s) (next_id s) Waiting) j a
                              = Dropped).
    { intros j. unfold drop_sender.
      destruct (upd (chans s) (next_id s) Waiting j); try exact H0.
      unfold upd at 1. destruct (Nat.eqb a j); [reflexivity | exact H0]. }
    destruct (same_path (url s) u), (pending s); simpl; auto.
  - unfold ready_to_complete. destruct (pending s) as [j|]; simpl; [|exact Hd].
    destruct (chans s j) eqn:Ej; try exact Hd.
    unfold upd. destruct (Nat.eqb a j) eqn:E; [|exact Hd].
    apply Nat.eqb_eq in E. subst. congruence.
  - unfold poll. destruct (tasks s k) as [t|]; [|exact Hd].
    destruct (t_same_path t); [|destruct (chans s k)]; exact Hd.
  - exact Hd.
Qed.


Lemma cancelled_step (a : nat) (s : NavState) (e : NavEvent) :
  cancelled a s -> cancelled a (nav_step s e).
Proof.
  intros (Hn & Hlt & Hd & Hp).
  split; [|split; [|split]].
  - apply no_new_commit; congruence.
  - pose proof (next_id_le s e). lia.
  - apply dropped_step; assumption.
  - intros H. destruct (pending_step s e a H); [contradiction | lia].
Qed.

Lemma cancelled_run (a : nat) (s : NavState) (es : list NavEvent) :
  cancelled a s -> cancelled a (run s es).
Proof.
  revert s; induction es as [|e es IH]; intros s H; [exact H|].
  rewrite run_cons. apply IH, cancelled_step, H.
Qed.

Lemma waiting_step (a : nat) (s : NavState) (e : NavEvent) :
  e <> Ready -> waiting_or_cancelled a s -> waiting_or_cancelled a (nav_step s e).
Proof.
  intros He (Hn & Hlt & [[Hw Hp] | [Hd Hp]]).
  2: { destruct (cancelled_step a s e (conj Hn (conj Hlt (conj Hd Hp))))
         as (? & ? & ? & ?).
       repeat split; auto. }
  split; [apply no_new_commit; congruence|].
  split; [pose proof (next_id_le s e); lia|].
  destruct e as [u l | | k | u]; simpl; [|contradiction| |].
  - unfold navigate. rewrite Hp.
    destruct (same_path (url s) u); simpl.
    + left. split; [|reflexivity].
      rewrite drop_sender_neq by lia. rewrite upd_neq by lia. exact Hw.
    + right. split; [|intros E; injection E; lia].
      unfold drop_sender. rewrite upd_neq by lia. rewrite Hw.
      apply upd_eq.
  - unfold poll. destruct (tasks s k) as [t|]; [|auto].
    destruct (t_same_path t); [|destruct (chans s k)]; simpl; auto.
  - simpl. auto.
Qed.

Lemma waiting_run (a : nat) (s : NavState) (es : list NavEvent) :
  ~ In Ready es -> waiting_or_cancelled a s -> waiting_or_cancelled a (run s es).
Proof.
  revert s; induction es as [|e es IH]; intros s Hr H; [exact H|].
  rewrite run_cons. apply IH; [intros X; apply Hr; right; exact X|].
  apply waiting_step; [intros ->; apply Hr; left; reflexivity | exact H].
Qed.

(** A navigation to a new path holds the pending slot. *)
Lemma navigate_waits (s : NavState) (u : Url) (l : LocationChange) :
  wf s -> same_path (url s) u = false ->
  waiting_or_cancelled (next_id s) (navigate s u l).
Proof.
  intros (Ht & Hl & Hp) Hsp. unfold navigate. rewrite Hsp.
  unfold waiting_or_cancelled, ids.
  destruct (pending s) as [j|] eqn:Ep; cbn [next_id log chans pending].
  - assert (Hj : j < next_id s) by (apply Hp; reflexivity).
    split; [intros H; apply Hl in H; lia|]. split; [lia|].
    left. split; [|reflexivity].
    rewrite drop_sender_neq by lia. apply upd_eq.
  - split; [intros H; apply Hl in H; lia|]. split; [lia|].
    left. split; [apply upd_eq | reflexivity].
Qed.

(** A navigation to a new path drops the sender of the waiting one. *)
Lemma navigate_cancels (a : nat) (s : NavState) (u : Url) (l : LocationChange) :
  same_path (url s) u = false ->
  waiting_or_cancelled a s -> cancelled a (navigate s u l).
Proof.
  intros Hsp (Hn & Hlt & [[Hw Hp] | [Hd Hp]]).
  - split; [apply (no_new_commit s (Navigate u l)); congruence|].
    split; [unfold navigate; rewrite Hsp; destruct (pending s); simpl; lia|].
    unfold navigate. rewrite Hsp, Hp. simpl.
    split; [|intros E; injection E; lia].
    unfold drop_sender. rewrite upd_neq by lia. rewrite Hw. apply upd_eq.
  - exact (cancelled_step a s (Navigate u l) (conj Hn (conj Hlt (conj Hd Hp)))).
Qed.

End Cancel.

(** ** When a waiting navigation commits *)

Module Commit.
Import Nav.


Lemma commit_step (b : nat) (ub : Url) (lb : LocationChange) (s : NavState)
    (e : NavEvent) :
  uncommitted b ub lb s -> In b (ids (nav_step s e)) ->
  e = Poll b /\ chans s b = Sent /\ url s = ub.
Proof.
  intros (Hn & Hlt & Ht). unfold ids.
  destruct (log_step s e) as [E | [(u & l & _ & _ & E) | (k & t & -> & Hk & Hs & Hc & Hu & E)]];
    rewrite E; [intros H; contradiction| |];
    rewrite map_app, in_app_iff; simpl; intros [H | [H | []]];
    try contradiction.
  - lia.
  - subst k. destruct Ht as [Ht | Ht]; rewrite Ht in Hk; [|discriminate].
    injection Hk as <-. simpl in Hu. apply url_eqb_spec in Hu. auto.
Qed.

Lemma uncommitted_step (b : nat) (ub : Url) (lb : LocationChange)
    (s : NavState) (e : NavEvent) :
  uncommitted b ub lb s -> ~ In b (ids (nav_step s e)) ->
  uncommitted b ub lb (nav_step s e).
Proof.
  intros (Hn & Hlt & Ht) Hn'.
  split; [exact Hn'|]. split; [pose proof (Cancel.next_id_le s e); lia|].
  destruct (tasks (nav_step s e) b) as [t|] eqn:E; [left|right; reflexivity].
  destruct (tasks_step s e b t E) as [H | H]; [|lia].
  destruct Ht as [Ht | Ht]; congruence.
Qed.

(** A commit of [b] happens at a poll of [b], after a [ready_to_complete]
    that came after [b]'s channel was created, with the URL signal equal
    to [b]'s URL at that moment. *)
Lemma commit_run (b : nat) (ub : Url) (lb : LocationChange) :
  forall (post : list NavEvent) (s : NavState),
  uncommitted b ub lb s -> In b (ids (run s post)) ->
  exists post1 post2,
    post = post1 ++ Poll b :: post2
    /\ (chans s b <> Sent -> In Ready post1)
    /\ url (run s post1) = ub.
Proof.
  induction post as [|e post IH]; intros s Hu Hin.
  - destruct Hu as [Hn _]. contradiction.
  - rewrite run_cons in Hin.
    destruct (in_dec Nat.eq_dec b (ids (nav_step s e))) as [Hb | Hb].
    + destruct (commit_step b ub lb s e Hu Hb) as (-> & Hc & Hurl).
      exists [], post. split; [reflexivity|]. split; [congruence|].
      exact Hurl.
    + destruct (IH (nav_step s e) (uncommitted_step b ub lb s e Hu Hb) Hin)
        as (post1 & post2 & -> & Hr & Hurl).
      exists (e :: post1), post2. split; [reflexivity|]. split; [|exact Hurl].
      intros Hc.
      destruct (chans (nav_step s e) b) eqn:Ec;
        [right; apply Hr; congruence| |right; apply Hr; congruence].
      destruct (chans_step_sent s e b Ec) as [H | [-> _]];
        [contradiction | left; reflexivity].
Qed.

Lemma navigate_uncommitted (s : NavState) (u : Url) (l : LocationChange) :
  wf s -> same_path (url s) u = false ->
  uncommitted (next_id s) u l (navigate s u l)
  /\ chans (navigate s u l) (next_id s) = Waiting.
Proof.
  intros (Ht & Hl & Hp) Hsp.
  destruct (Cancel.navigate_waits s u l (conj Ht (conj Hl Hp)) Hsp)
    as (Hn & Hlt & [[Hw _] | [Hd Hp']]).
  - split; [|exact Hw].
    split; [exact Hn|]. split; [exact Hlt|]. left.
    unfold navigate. rewrite Hsp.
    destruct (pending s); simpl; apply upd_eq.
  - exfalso. unfold navigate in Hp'. rewrite Hsp in Hp'.
    destruct (pending s); simpl in Hp'; congruence.
Qed.

End Commit.

(** Claim C1 (as stated): of two navigations A and B to distinct paths, B
    issued before [ready_to_complete], A never commits.  A navigation whose
    path equals the current one (here [/a?x=1] from [/a]) commits at once,
    inside [navigate]. *)
Lemma navigation_same_path_commits_counterexample :
  let u0 := url_of_path "/a" in
  let uA := mkUrl (lit "https://leptos.dev") (lit "/a") (lit "x=1") [] [] in
  let uB := url_of_path "/b" in
  let l := mkLocationChange [] false true None in
  path uA <> path uB
  /\ In 0 (ids (run (nav_init u0) [Navigate uA l; Navigate uB l])).
Proof. vm_compute. split; [discriminate | left; reflexivity]. Qed.

(** ** Claim C1 (amended): a later navigation cancels a waiting one.
    Start from the router's initial state and run any events [pre].  Let
    navigation A go to a URL whose origin or path differs from the URL
    signal at that moment, and navigation B be issued after it, with no
    [ready_to_complete] in between and with an origin or path that differs
    from the URL signal when B is issued (as it does when B's path differs
    from A's and nothing else changed the URL).  Then whatever happens
    afterwards, [complete_navigation] is never called for A; and B's
    [complete_navigation] is called only when its future is polled after a
    [ready_to_complete] that follows B, with the URL signal equal to B's
    URL at that moment.  Besides, from any state reached by any events, a
    navigation to the current origin and path commits at once: the
    [navigate] step itself appends its change to the history log, with no
    [ready_to_complete] involved. *)
Theorem navigation_cancellation (u0 : Url) (pre mid post : list NavEvent)
  (uA uB : Url) (lA lB : LocationChange)
  (HA : same_path (url (run (nav_init u0) pre)) uA = false)
  (Hmid : ~ In Ready mid)
  (HB : same_path (url (run (nav_init u0) (pre ++ Navigate uA lA :: mid))) uB
        = false) :
  let idA := next_id (run (nav_init u0) pre) in
  let idB := next_id (run (nav_init u0) (pre ++ Navigate uA lA :: mid)) in
  let final :=
    run (nav_init u0) (pre ++ Navigate uA lA :: mid ++ Navigate uB lB :: post) in
  ~ In idA (ids final)
  /\ (In idB (ids final) ->
      exists post1 post2,
        post = post1 ++ Poll idB :: post2
        /\ In Ready post1
        /\ url (run (nav_init u0)
                  (pre ++ Navigate uA lA :: mid ++ Navigate uB lB :: post1))
           = uB)
  /\ (forall es u l,
      same_path (url (run (nav_init u0) es)) u = true ->
      log (run (nav_init u0) (es ++ [Navigate u l]))
      = log (run (nav_init u0) es) ++ [(next_id (run (nav_init u0) es), l)]).
Proof.
  intros idA idB final.
  assert (Hsame : forall es u l,
      same_path (url (run (nav_init u0) es)) u = true ->
      log (run (nav_init u0) (es ++ [Navigate u l]))
      = log (run (nav_init u0) es) ++ [(next_id (run (nav_init u0) es), l)]).
  { intros es u l Hsp. rewrite Nav.run_app. cbn [run fold_left nav_step].
    unfold navigate. rewrite Hsp. reflexivity. }
  cut (~ In idA (ids final)
       /\ (In idB (ids final) ->
           exists post1 post2,
             post = post1 ++ Poll idB :: post2
             /\ In Ready post1
             /\ url (run (nav_init u0)
                       (pre ++ Navigate uA lA :: mid ++ Navigate uB lB :: post1))
                = uB));
    [intros [H1 H2]; split; [exact H1 | split; [exact H2 | exact Hsame]]|].
  set (s1 := run (nav_init u0) pre) in *.
  set (s2 := run (navigate s1 uA lA) mid).
  assert (Hs2 : run (nav_init u0) (pre ++ Navigate uA lA :: mid) = s2)
    by (rewrite Nav.run_app; reflexivity).
  assert (Hrun : forall es, run (nav_init u0)
                   (pre ++ Navigate uA lA :: mid ++ Navigate uB lB :: es)
                 = run (navigate s2 uB lB) es).
  { intros es. rewrite Nav.run_app. simpl. fold s1.
    rewrite Nav.run_app. reflexivity. }
  unfold idB in *. rewrite Hs2 in HB |- *.
  unfold final. rewrite Hrun.
  assert (Hwf1 : wf s1) by apply Nav.wf_run, Nav.wf_init.
  assert (Hwf2 : wf s2).
  { unfold s2. apply Nav.wf_run. apply (Nav.wf_step s1 (Navigate uA lA) Hwf1). }
  split.
  - assert (Hc : cancelled idA (run (navigate s2 uB lB) post)).
    { apply Cancel.cancelled_run, Cancel.navigate_cancels; [exact HB|].
      apply Cancel.waiting_run; [exact Hmid|].
      apply Cancel.navigate_waits; assumption. }
    destruct Hc as [Hc _]. exact Hc.
  - intros Hin.
    destruct (Commit.navigate_uncommitted s2 uB lB Hwf2 HB) as [Hu Hw].
    destruct (Commit.commit_run (next_id s2) uB lB post _ Hu Hin)
      as (post1 & post2 & Hpost & Hr & Hurl).
    exists post1, post2. split; [exact Hpost|].
    split; [apply Hr; rewrite Hw; discriminate|].
    rewrite Hrun. exact Hurl.
Qed.

(** * Concrete instances *)

(** C1: from [/], navigate to [/a], then to [/b], then [ready_to_complete]
    and poll B's future. *)
Lemma navigation_cancellation_witness :
  let u0 := url_of_path "/" in
  let l := mkLocationChange [] false true None in
  let final := run (nav_init u0)
    ([] ++ Navigate (url_of_path "/a") l :: []
        ++ Navigate (url_of_path "/b") l :: [Ready; Poll 1]) in
  ~ In 0 (ids final) /\ In 1 (ids final)
  /\ (In 1 (ids final) ->
      exists post1 post2,
        [Ready; Poll 1] = post1 ++ Poll 1 :: post2 /\ In Ready post1
        /\ url (run (nav_init u0)
                  ([] ++ Navigate (url_of_path "/a") l :: []
                      ++ Navigate (url_of_path "/b") l :: post1))
           = url_of_path "/b")
  /\ log (run (nav_init u0)
           ([Navigate (url_of_path "/a") l]
            ++ [Navigate (mkUrl (lit "https://leptos.dev") (lit "/a") (lit "x=1") [] []) l]))
     = [(1, l)].
Proof.
  intros u0 l final.
  destruct (navigation_cancellation u0 [] [] [Ready; Poll 1]
              (url_of_path "/a") (url_of_path "/b") l l
              ltac:(vm_compute; reflexivity) (fun H => H)
              ltac:(vm_compute; reflexivity)) as [HnA [HB Hsame]].
  split; [exact HnA|].
  split; [vm_compute; left; reflexivity|].
  split; [exact HB|].
  rewrite (Hsame [Navigate (url_of_path "/a") l]
             (mkUrl (lit "https://leptos.dev") (lit "/a") (lit "x=1") [] []) l
             ltac:(vm_compute; reflexivity)).
  vm_compute. reflexivity.
Defined.

(** C2: base [/app], path [x], from [/app/y]. *)
Lemma resolve_path_relative_under_from_witness :
  resolve_path (lit "/app") (lit "x") (Some (lit "/app/y"))
  = normalize (lit "/app/y") false ++ normalize (lit "x") false.
Proof.
  apply (resolve_path_relative_under_from (lit "/app") (lit "x") (lit "/app/y"));
    [reflexivity | reflexivity | reflexivity | vm_compute; discriminate].
Defined.

(** C3: a router URL with an empty hash survives the round trip. *)
Lemma hash_roundtrip_clears_hash_witness :
  browser_to_router_url (router_to_browser_url (url_of_path "/foo"))
  = url_of_path "/foo".
Proof.
  apply (proj2 (proj2 (proj2 (hash_roundtrip_clears_hash (url_of_path "/foo"))))).
  reflexivity.
Defined.

(** C4: stack [/a, /b, /c], popstate delivering [/b]. *)
Lemma popstate_is_back_spec_witness :
  is_back (on_popstate
             (mkPopState (url_of_path "/c")
                (map url_of_path ["/a"; "/b"; "/c"]%string) false)
             (Ok (url_of_path "/b"))) = true.
Proof.
  exact (proj2 (proj1 (popstate_is_back_spec
                         (mkPopState (url_of_path "/c")
                            (map url_of_path ["/a"; "/b"; "/c"]%string) false)
                         (url_of_path "/b")))
           (or_intror eq_refl)).
Defined.

(** C5: a plain click on an anchor to [/app/x] under the base [/app]. *)
Lemma anchor_click_interception_witness :
  let a := mkAnchor (lit "https://leptos.dev/app/x") [] [] None None in
  let ev := mkMouseEvent false 0 false false false false [OtherNode; AnchorNode a] in
  exists change,
    handle_anchor_click parse_on_origin (fun x => x) (fun x => x)
      (Some (lit "/app")) (Ok (lit "https://leptos.dev")) ev
    = Returned [PreventDefault;
                NavigateCall (mkUrl (lit "https://leptos.dev") (lit "/app/x") [] [] [])
                  change] (Ok tt).
Proof.
  intros a ev.
  apply (proj2 (proj2 (anchor_click_interception parse_on_origin
                         (fun x => x) (fun x => x) (Some (lit "/app"))
                         (Ok (lit "https://leptos.dev")) ev))
           (lit "https://leptos.dev") a);
    try reflexivity.
  - left. discriminate.
  - vm_compute. intros [H | []]. discriminate.
  - right. exists (lit "/app"). split; reflexivity.
Defined.

(** C7: [//a//b///] normalises to [/a//b/]. *)
Lemma normalize_edge_slashes_witness :
  normalize (repeat slash 2 ++ lit "a//b" ++ repeat slash 3) false
  = slash :: lit "a//b" ++ repeat slash 1.
Proof.
  apply (proj2 (proj2 normalize_edge_slashes) 2 3 (lit "a//b") (lit "//b") "a"%char);
    [reflexivity | discriminate | discriminate | discriminate | discriminate].
Defined.

(** C8: [mailto:a@b.com] and [https://leptos.dev] pass through. *)
Lemma resolve_path_scheme_unchanged_witness :
  resolve_path (lit "/app") (lit "https://leptos.dev") (Some (lit "/app/y"))
  = lit "https://leptos.dev".
Proof.
  apply (proj1 (resolve_path_scheme_unchanged (lit "/app") (Some (lit "/app/y"))
                  (lit "https://leptos.dev")
                  (or_intror (or_intror (or_intror
                     (ex_intro _ (lit "https") (ex_intro _ (lit "leptos.dev")
                        (conj eq_refl eq_refl)))))))).
Defined.

(** C10: a browser URL with hash [top] (no ['#']). *)
Lemma browser_to_router_no_fragment_witness :
  browser_to_router_url (mkUrl (lit "https://leptos.dev") (lit "/x") [] [] (lit "top"))
  = mkUrl (lit "https://leptos.dev") (lit "/") [] [] [].
Proof.
  apply (browser_to_router_no_fragment
           (mkUrl (lit "https://leptos.dev") (lit "/x") [] [] (lit "top"))).
  right. exists "t"%char, (lit "op"). split; [reflexivity | discriminate].
Defined.

(** * Further properties of the path handling *)

Module Shape.
Import Normalize.

Lemma take_while_count_app (x y : str) :
  take_while_count slash x < length x ->
  take_while_count slash (x ++ y) = take_while_count slash x.
Proof.
  induction x as [|c x IH]; simpl; intros H; [lia|].
  destruct (Ascii.eqb c slash); [|reflexivity].
  rewrite IH by lia. reflexivity.
Qed.

Lemma take_while_count_snoc (z : str) (c : ascii) :
  c <> slash -> take_while_count slash (z ++ [c]) <= length z.
Proof.
  intros Hc. induction z as [|d z IH]; simpl.
  - destruct (Ascii.eqb c slash) eqn:E; [apply Ascii.eqb_eq in E; contradiction | lia].
  - destruct (Ascii.eqb d slash); lia.
Qed.

Lemma dedup_rev_trailing (r : str) : take_while_count slash (dedup_rev r) <= 1.
Proof.
  unfold dedup_rev.
  rewrite (take_while_count_skipn (take_while_count slash r - 1) r ltac:(lia)).
  lia.
Qed.

(** The trimmed string of [normalize]: empty, or starting with a character
    other than a slash. *)
Lemma trimmed_head (p : str) :
  forall c t, rev (dedup_rev (rev (trim_start_matches slash p))) = c :: t ->
  c <> slash.
Proof.
  intros c t H.
  destruct (trim_start_matches slash p) as [|d u] eqn:Et.
  - simpl in H. discriminate.
  - destruct (dedup_head (d :: u) d u eq_refl) as [s'' Hd].
    rewrite Hd in H. injection H as <- _.
    exact (trim_start_head p d u Et).
Qed.

Lemma trim_start_nil (p : str) :
  trim_start_matches slash p = [] <-> Forall (fun c => c = slash) p.
Proof.
  induction p as [|c p IH]; simpl; [split; auto|].
  destruct (Ascii.eqb c slash) eqn:E.
  - apply Ascii.eqb_eq in E. subst c. rewrite IH.
    split; [auto | intros H; inversion H; assumption].
  - split; [discriminate|]. intros H. inversion H; subst.
    rewrite Ascii.eqb_refl in E. discriminate.
Qed.

End Shape.

(** [normalize p true] never starts with a slash. *)
Theorem normalize_omit_no_leading_slash (p : str) :
  forall c t, normalize p true = c :: t -> c <> slash.
Proof.
  rewrite Normalize.normalize_eq. cbv zeta. rewrite orb_true_r. simpl.
  apply Shape.trimmed_head.
Qed.

(** [normalize p false] is empty, starts with [#] or [?], or is a single
    slash followed by a character other than a slash. *)
Theorem normalize_leading_shape (p : str) :
  normalize p false = []
  \/ (exists c t, normalize p false = c :: t /\ (c = "#"%char \/ c = "?"%char))
  \/ (exists c t, normalize p false = slash :: c :: t /\ c <> slash).
Proof.
  rewrite Normalize.normalize_eq. cbv zeta.
  pose proof (Shape.trimmed_head p) as Hh.
  destruct (rev (dedup_rev (rev (trim_start_matches slash p)))) as [|c t].
  - left. reflexivity.
  - simpl. destruct (Ascii.eqb c "#"%char) eqn:E1.
    + right; left. exists c, t. split; [reflexivity|].
      left. apply Ascii.eqb_eq. exact E1.
    + destruct (Ascii.eqb c "?"%char) eqn:E2; simpl.
      * right; left. exists c, t. split; [reflexivity|].
        right. apply Ascii.eqb_eq. exact E2.
      * right; right. exists c, t. split; [reflexivity|]. exact (Hh c t eq_refl).
Qed.

(** The result of [normalize] ends in at most one slash. *)
Theorem normalize_trailing_slashes (p : str) (omit_slash : bool) :
  take_while_count slash (rev (normalize p omit_slash)) <= 1.
Proof.
  rewrite Normalize.normalize_eq. cbv zeta.
  pose proof (Shape.trimmed_head p) as Hh.
  set (s := rev (dedup_rev (rev (trim_start_matches slash p)))) in *.
  assert (Hs : take_while_count slash (rev s) <= 1).
  { unfold s. rewrite rev_involutive. apply Shape.dedup_rev_trailing. }
  destruct (is_empty s || omit_slash || begins_with_query_or_hash s); [exact Hs|].
  destruct s as [|c t] eqn:Es; [simpl; lia|].
  simpl rev. rewrite Shape.take_while_count_app; [exact Hs|].
  simpl. pose proof (Shape.take_while_count_snoc (rev t) c (Hh c t eq_refl)).
  rewrite length_app. simpl. lia.
Qed.

(** [normalize] returns the empty string exactly for paths made only of
    slashes (such as [""] and ["/"]), whatever [omit_slash] is. *)
Theorem normalize_empty_iff (p : str) (omit_slash : bool) :
  normalize p omit_slash = [] <-> Forall (fun c => c = slash) p.
Proof.
  rewrite <- Shape.trim_start_nil.
  rewrite Normalize.normalize_eq. cbv zeta.
  destruct (trim_start_matches slash p) as [|c t] eqn:Et.
  - split; reflexivity.
  - split; [|discriminate]. intros H.
    destruct (Normalize.dedup_head (c :: t) c t eq_refl) as [s'' Hd].
    rewrite Hd in H. simpl in H.
    destruct (_ || _) in H; discriminate.
Qed.

Module ResolveShape.

Lemma find_from_ge (s pat : str) (i j : nat) :
  find_from s pat i = Some j -> i <= j.
Proof.
  revert i. induction s as [|c s IH]; intros i; simpl.
  - destruct (starts_with [] pat); [intros H; injection H; lia | discriminate].
  - destruct (starts_with (c :: s) pat); [|intros H; specialize (IH _ H); lia].
    intros H. injection H. lia.
Qed.

Lemma find_zero (s pat : str) : find s pat = Some 0 <-> starts_with s pat = true.
Proof.
  unfold find. split.
  - destruct s as [|c s]; simpl; destruct (starts_with _ pat) eqn:E; auto;
      try discriminate.
    intros H. apply find_from_ge in H. lia.
  - destruct s; simpl; intros ->; reflexivity.
Qed.

Lemma starts_with_app_r (s y pat : str) :
  starts_with s pat = true -> starts_with (s ++ y) pat = true.
Proof.
  revert s. induction pat as [|p pat IH]; intros s; simpl; [reflexivity|].
  destruct s as [|c s]; [discriminate|]. simpl.
  intros H. apply andb_prop in H as [H1 H2]. rewrite H1, (IH s H2). reflexivity.
Qed.

Lemma starts_with_nil (pat : str) : starts_with [] pat = true -> pat = [].
Proof. destruct pat; [reflexivity | discriminate]. Qed.

Lemma has_scheme_nil : has_scheme [] = false.
Proof. reflexivity. Qed.

Lemma normalize_false_head (p : str) (c : ascii) (t : str) :
  normalize p false = c :: t -> c = slash \/ c = "#"%char \/ c = "?"%char.
Proof.
  rewrite Normalize.normalize_eq. cbv zeta.
  destruct (rev (dedup_rev (rev (trim_start_matches slash p)))) as [|d u];
    [discriminate|].
  simpl. destruct (Ascii.eqb d "#"%char) eqn:E1.
  - intros H. injection H as <- _. apply Ascii.eqb_eq in E1. auto.
  - destruct (Ascii.eqb d "?"%char) eqn:E2; simpl; intros H; injection H as <- _.
    + apply Ascii.eqb_eq in E2. auto.
    + auto.
Qed.

Lemma app_head {A} (x y : list A) (c : A) (t : list A) :
  x ++ y = c :: t -> (exists t', x = c :: t') \/ (x = [] /\ y = c :: t).
Proof. destruct x as [|d x]; simpl; intros H; [auto|]. injection H as -> _. eauto. Qed.

End ResolveShape.

(** [resolve_path] never returns the empty string. *)
Theorem resolve_path_nonempty (base p : str) (from : option str) :
  resolve_path base p from <> [].
Proof.
  unfold resolve_path.
  destruct (has_scheme p) eqn:Hs.
  - destruct p; [rewrite ResolveShape.has_scheme_nil in Hs; discriminate | discriminate].
  - cbv zeta.
    match goal with
    | |- (if match ?r with [] => true | _ :: _ => false end then _ else _) ++ _ <> []
      => destruct r
    end; discriminate.
Qed.

(** A path with a leading slash is resolved against the base alone: the
    [from] location plays no part. *)
Theorem resolve_path_absolute_ignores_from (base p f : str)
  (Habs : starts_with p (lit "/") = true) :
  resolve_path base p (Some f) = resolve_path base p None.
Proof.
  unfold resolve_path. destruct (has_scheme p); [reflexivity|].
  simpl option_map. rewrite Habs. reflexivity.
Qed.

(** A path without a scheme resolves to a string that starts with a slash,
    or with [#] or [?] when the normalised base or [from] starts with one. *)
Theorem resolve_path_leading_char (base p : str) (from : option str)
  (Hscheme : has_scheme p = false) :
  exists c t, resolve_path base p from = c :: t
              /\ (c = slash \/ c = "#"%char \/ c = "?"%char).
Proof.
  unfold resolve_path. rewrite Hscheme. cbv zeta.
  set (r := match option_map (fun from => normalize from false) from with
            | Some from_path => _ | None => _ end).
  assert (Hr : forall c t, r = c :: t -> c = slash \/ c = "#"%char \/ c = "?"%char).
  { intros c t. unfold r. destruct from as [f|]; simpl option_map.
    - destruct (starts_with p (lit "/")); [apply ResolveShape.normalize_false_head|].
      destruct (negb _).
      + intros H. apply ResolveShape.app_head in H as [[t' H]|[_ H]];
          eapply ResolveShape.normalize_false_head; exact H.
      + apply ResolveShape.normalize_false_head.
    - apply ResolveShape.normalize_false_head. }
  destruct r as [|c t].
  - exists slash. eexists. split; [reflexivity | left; reflexivity].
  - exists c. eexists. split; [reflexivity|]. exact (Hr c t eq_refl).
Qed.

(** A path without a scheme always resolves under the normalised router
    base: the result starts with [normalize base false]. *)
Theorem resolve_path_under_base (base p : str) (from : option str)
  (Hscheme : has_scheme p = false) :
  starts_with (resolve_path base p from) (normalize base false) = true.
Proof.
  unfold resolve_path. rewrite Hscheme. cbv zeta.
  assert (Hr : forall r, starts_with r (normalize base false) = true ->
    starts_with ((if match r with [] => true | _ :: _ => false end
                  then lit "/" else r)
                 ++ normalize p (match r with [] => true | _ :: _ => false end))
                (normalize base false) = true).
  { intros [|c r] H.
    - apply ResolveShape.starts_with_nil in H. rewrite H. reflexivity.
    - apply ResolveShape.starts_with_app_r. exact H. }
  apply Hr.
  assert (Hself : forall x : str, starts_with x x = true).
  { intros x. pose proof (Resolve.starts_with_app x []) as H.
    rewrite app_nil_r in H. exact H. }
  destruct from as [f|]; simpl option_map; [|apply Hself].
  destruct (starts_with p (lit "/")); [apply Hself|].
  destruct (find (normalize f false) (normalize base false)) as [[|n]|] eqn:E;
    simpl negb; cbv iota.
  - apply ResolveShape.find_zero. exact E.
  - apply Resolve.starts_with_app.
  - apply Resolve.starts_with_app.
Qed.

(** When the normalised [from] does not start with the normalised base (the
    current location lies outside the router base), a relative path without
    a scheme resolves to the base, then [from], then the path. *)
Theorem resolve_path_from_outside_base (base p f : str)
  (Hscheme : has_scheme p = false)
  (Hrel : starts_with p (lit "/") = false)
  (Hout : starts_with (normalize f false) (normalize base false) = false) :
  resolve_path base p (Some f)
  = normalize base false ++ normalize f false ++ normalize p false.
Proof.
  unfold resolve_path. rewrite Hscheme. simpl option_map. rewrite Hrel.
  destruct (find (normalize f false) (normalize base false)) as [[|n]|] eqn:E.
  - apply ResolveShape.find_zero in E. congruence.
  - simpl negb. cbv iota zeta.
    destruct (normalize base false) as [|c b] eqn:Eb.
    + destruct (normalize f false) eqn:Ef; [discriminate Hout | reflexivity].
    + simpl. rewrite app_assoc. reflexivity.
  - simpl negb. cbv iota zeta.
    destruct (normalize base false) as [|c b] eqn:Eb.
    + destruct (normalize f false) eqn:Ef; [discriminate Hout | reflexivity].
    + simpl. rewrite app_assoc. reflexivity.
Qed.

(** * Further properties of the URL conversions and back detection *)

Module BackDetect.

Lemma nth_error_second_last {A} (l : list A) (p c : A) :
  nth_error (l ++ [p; c]) (length (l ++ [p; c]) - 2) = Some p.
Proof.
  rewrite length_app. simpl.
  replace (length l + 2 - 2) with (length l) by lia.
  rewrite nth_error_app2 by lia. rewrite Nat.sub_diag. reflexivity.
Qed.

Lemma url_eqb_refl (u : Url) : url_eqb u u = true.
Proof. unfold url_eqb. destruct (Url_eq_dec u u); [reflexivity | contradiction]. Qed.

(** A popstate on a stack ending in [p; c] that delivers [p] is a back
    navigation. *)
Lemma back_to_second_last (s : PopState) (l : list Url) (p c : Url) :
  path_stack s = l ++ [p; c] -> is_back (on_popstate s (Ok p)) = true.
Proof.
  intros H. simpl. unfold is_navigating_back. rewrite H.
  rewrite nth_error_second_last. simpl option_url_eqb. rewrite url_eqb_refl.
  rewrite length_app, Nat.add_comm. simpl.
  reflexivity.
Qed.

Lemma record_ok (s : PopState) (p c : Url) (l : list Url) :
  path_stack s = l ++ [p] ->
  path_stack (record_navigation s (Ok c)) = l ++ [p; c].
Proof. intros H. simpl. rewrite H, <- app_assoc. reflexivity. Qed.

End BackDetect.

(** Converting a browser-space URL to router space and back gives the same
    URL exactly when its path is ["/"] and its hash starts with [#]; any
    other browser URL is rewritten (e.g. an empty hash becomes ["#/"]). *)
Theorem hash_browser_roundtrip_iff (u : Url) :
  router_to_browser_url (browser_to_router_url u) = u
  <-> path u = lit "/" /\ exists h, hash u = "#"%char :: h.
Proof.
  destruct u as [o p q sp h]. unfold router_to_browser_url, browser_to_router_url.
  cbn [origin path search search_params hash]. split.
  - intros H. injection H as Hp Hh. split; [symmetry; exact Hp|].
    exists (match strip_prefix "#"%char h with Some x => x | None => lit "/" end).
    symmetry. exact Hh.
  - intros [-> [h' ->]]. reflexivity.
Qed.

(** [HashRouter::complete_navigation] writes to the history the origin, then
    ["/"], then ["?"] and the query if there is one, then [#] and the router
    path: the router path goes after a single [#], whatever it is. *)
Theorem hash_complete_navigation_url (parse_with_default_base : str -> Url)
  (s : PopState) (loc : LocationChange) (current : Result Url JsValue) :
  let pu := parse_with_default_base (value loc) in
  fst (hash_complete_navigation parse_with_default_base s loc current)
  = history_call loc (origin pu ++ lit "/"
                      ++ (if is_empty (search pu) then [] else lit "?" ++ search pu)
                      ++ lit "#" ++ path pu).
Proof.
  cbv zeta. unfold hash_complete_navigation, to_full_path, router_to_browser_url.
  cbn [fst origin path search hash].
  destruct (search (parse_with_default_base (value loc))) as [|c q]; reflexivity.
Qed.

(** After either router completes a navigation on a path stack ending in
    [p] (and [Self::current()] succeeds), a popstate that brings back [p] is
    recognised as a back navigation. *)
Theorem complete_navigation_then_back (parse_with_default_base : str -> Url)
  (s : PopState) (l : list Url) (p c : Url) (loc : LocationChange)
  (Hstack : path_stack s = l ++ [p]) :
  is_back (on_popstate (snd (browser_complete_navigation s loc (Ok c))) (Ok p))
  = true
  /\ is_back (on_popstate
       (snd (hash_complete_navigation parse_with_default_base s loc (Ok c)))
       (Ok p)) = true.
Proof.
  split; apply (BackDetect.back_to_second_last _ l p c);
    apply BackDetect.record_ok; exact Hstack.
Qed.

(** The popstate callback does not pop the path stack: after a first back
    navigation from [r] to [q] is recognised, a second back navigation to [p]
    is not (for [p] different from [q]). *)
Theorem popstate_second_back_missed (s : PopState) (l : list Url) (p q r : Url)
  (Hstack : path_stack s = l ++ [p; q; r]) (Hpq : p <> q) :
  is_back (on_popstate s (Ok q)) = true
  /\ is_back (on_popstate (on_popstate s (Ok q)) (Ok p)) = false.
Proof.
  split.
  - apply (BackDetect.back_to_second_last _ (l ++ [p]) q r).
    rewrite Hstack, <- app_assoc. reflexivity.
  - simpl. unfold is_navigating_back. rewrite Hstack.
    replace (l ++ [p; q; r]) with ((l ++ [p]) ++ [q; r])
      by (rewrite <- app_assoc; reflexivity).
    rewrite BackDetect.nth_error_second_last. simpl option_url_eqb.
    unfold url_eqb. destruct (Url_eq_dec q p) as [E|_]; [congruence|].
    rewrite !length_app. simpl.
    destruct (Nat.eqb (length l + 1 + 2) 1) eqn:E; [apply Nat.eqb_eq in E; lia|].
    rewrite andb_false_r. reflexivity.
Qed.

(** Right after [new()] the path stack holds one URL, so the first popstate
    is recognised as a back navigation whatever URL it brings, a forward one
    included. *)
Theorem router_new_first_popstate_back (u n : Url) :
  exists s, router_new (Ok u) (Ok n) = Ok s
            /\ path_stack s = [n]
            /\ forall v, is_back (on_popstate s (Ok v)) = true.
Proof.
  eexists. split; [reflexivity|]. split; [reflexivity|].
  intros v. reflexivity.
Qed.

(** * Further properties of navigation *)

Module NavMore.
Import Nav.

Lemma nodup_snoc (l : list nat) (x : nat) :
  NoDup l -> ~ In x l -> NoDup (l ++ [x]).
Proof.
  induction l as [|y l IH]; simpl; intros Hn Hx.
  - constructor; [intros []| constructor].
  - inversion Hn as [|? ? Hy Hl]; subst. constructor.
    + rewrite in_app_iff. simpl. intros [H|[H|[]]]; [contradiction|].
      subst. apply Hx. left. reflexivity.
    + apply IH; [exact Hl|]. intros H. apply Hx. right. exact H.
Qed.

Lemma nodup_inv_init (u : Url) : nodup_inv (nav_init u).
Proof.
  split; [apply wf_init|]. split; [constructor|].
  intros k t H. discriminate.
Qed.

Lemma nodup_inv_step (s : NavState) (e : NavEvent) :
  nodup_inv s -> nodup_inv (nav_step s e).
Proof.
  intros (Hwf & Hnd & Hsp). split; [apply wf_step; exact Hwf|].
  destruct Hwf as (Ht & Hl & Hp).
  destruct e as [u l | | k | u]; cbn [nav_step].
  - unfold navigate.
    destruct (same_path (url s) u) eqn:Esp; cbn [log tasks]; unfold ids in *;
      cbn [log tasks]; split.
    + rewrite map_app. apply nodup_snoc; [exact Hnd|].
      intros H. apply Hl in H. simpl in H. lia.
    + intros k t Hk Hin. unfold upd in Hk.
      destruct (Nat.eqb k (next_id s)) eqn:E.
      * injection Hk as <-. reflexivity.
      * rewrite map_app, in_app_iff in Hin. simpl in Hin.
        destruct Hin as [Hin | [Hin | []]].
        -- exact (Hsp k t Hk Hin).
        -- apply Nat.eqb_neq in E. congruence.
    + destruct (pending s); exact Hnd.
    + destruct (pending s); cbn [tasks log];
        intros k t Hk Hin; unfold upd in Hk;
        (destruct (Nat.eqb k (next_id s)) eqn:E;
         [apply Nat.eqb_eq in E; subst k; apply Hl in Hin; lia
         | exact (Hsp k t Hk Hin)]).
  - unfold ready_to_complete. destruct (pending s); split; assumption.
  - unfold poll. destruct (tasks s k) as [t|] eqn:Etk; [|split; assumption].
    assert (Hfin : forall b : bool, (b = true -> t_same_path t = false) ->
      NoDup (map fst (if b then log s ++ [(k, t_loc t)] else log s))
      /\ (forall k' t', upd (tasks s) k None k' = Some t' ->
          In k' (map fst (if b then log s ++ [(k, t_loc t)] else log s)) ->
          t_same_path t' = true)).
    { intros b Hb. split.
      - destruct b; [|exact Hnd].
        rewrite map_app. apply nodup_snoc; [exact Hnd|].
        intros Hin. specialize (Hsp k t Etk Hin).
        rewrite (Hb eq_refl) in Hsp. discriminate.
      - intros k' t' Hk' Hin. unfold upd in Hk'.
        destruct (Nat.eqb k' k) eqn:E; [discriminate|].
        apply (Hsp k' t' Hk'). destruct b; [|exact Hin].
        rewrite map_app, in_app_iff in Hin. simpl in Hin.
        destruct Hin as [Hin | [Hin | []]]; [exact Hin|].
        apply Nat.eqb_neq in E. congruence. }
    destruct (t_same_path t) eqn:Es.
    + exact (Hfin false (fun H => ltac:(discriminate H))).
    + destruct (chans s k).
      * split; assumption.
      * exact (Hfin _ (fun _ => eq_refl)).
      * exact (Hfin false (fun H => ltac:(discriminate H))).
  - split; assumption.
Qed.

Lemma nodup_inv_run (s : NavState) (es : list NavEvent) :
  nodup_inv s -> nodup_inv (run s es).
Proof.
  revert s; induction es as [|e es IH]; intros s H; [exact H|].
  rewrite run_cons. apply IH, nodup_inv_step, H.
Qed.

(** The state right after a navigation to a path other than the current
    one: its sender is the pending one, still waiting. *)
Lemma navigate_other_path (s : NavState) (u : Url) (l : LocationChange) :
  wf s -> same_path (url s) u = false ->
  let s1 := navigate s u l in
  url s1 = u /\ pending s1 = Some (next_id s)
  /\ chans s1 (next_id s) = Waiting
  /\ tasks s1 (next_id s) = Some (mkTask u l false)
  /\ log s1 = log s /\ next_id s1 = S (next_id s).
Proof.
  intros (Ht & Hl & Hp) Hsp. cbv zeta. unfold navigate. rewrite Hsp.
  destruct (pending s) as [j|] eqn:Ej; cbn [url pending chans tasks log next_id];
    (split; [reflexivity|]); (split; [reflexivity|]);
    (split; [|split; [apply upd_eq | split; reflexivity]]).
  - rewrite drop_sender_neq; [apply upd_eq|].
    specialize (Hp j eq_refl). lia.
  - apply upd_eq.
Qed.

End NavMore.

(** A navigation is written to the history at most once: in every run from
    the initial state, the log of [complete_navigation] calls has no
    repeated navigation number. *)
Theorem navigation_log_nodup (u0 : Url) (es : list NavEvent) :
  NoDup (ids (run (nav_init u0) es)).
Proof.
  apply (NavMore.nodup_inv_run (nav_init u0) es (NavMore.nodup_inv_init u0)).
Qed.

(** A navigation to another path commits once [ready_to_complete] runs and
    its future is polled, if nothing happened in between: the history gets
    exactly its change. *)
Theorem navigation_commits_when_ready (s : NavState) (u : Url)
  (l : LocationChange) (Hwf : wf s) (Hsp : same_path (url s) u = false) :
  log (run s [Navigate u l; Ready; Poll (next_id s)])
  = log s ++ [(next_id s, l)].
Proof.
  destruct (NavMore.navigate_other_path s u l Hwf Hsp)
    as (Hu & Hp & Hc & Ht & Hlog & _).
  unfold run. cbn [fold_left nav_step].
  set (s1 := navigate s u l) in *.
  unfold ready_to_complete. rewrite Hp, Hc.
  unfold poll. cbn [tasks chans url log pending next_id].
  rewrite Ht, Nav.upd_eq. cbn [t_same_path t_new_url t_loc].
  rewrite Hu, BackDetect.url_eqb_refl, Hlog. reflexivity.
Qed.

(** A navigation to the same path as the URL just navigated to commits at
    once and leaves the pending navigation in place; that one still commits
    afterwards if the second URL equals the first, so the history gets the
    later change first. *)
Theorem same_path_navigation_keeps_pending (s : NavState) (u1 u2 : Url)
  (l1 l2 : LocationChange) (Hwf : wf s)
  (Hsp1 : same_path (url s) u1 = false) (Hsp2 : same_path u1 u2 = true) :
  log (run s [Navigate u1 l1; Navigate u2 l2; Ready; Poll (next_id s)])
  = log s ++ [(S (next_id s), l2)]
    ++ (if url_eqb u2 u1 then [(next_id s, l1)] else []).
Proof.
  destruct (NavMore.navigate_other_path s u1 l1 Hwf Hsp1)
    as (Hu & Hp & Hc & Ht & Hlog & Hn).
  unfold run. cbn [fold_left nav_step].
  set (s1 := navigate s u1 l1) in *.
  unfold navigate at 1. rewrite Hu, Hsp2, Hn, Hp. cbn [pending chans].
  unfold ready_to_complete. cbn [pending chans].
  rewrite Nav.drop_sender_neq by lia. rewrite Nav.upd_neq by lia. rewrite Hc.
  unfold poll. cbn [tasks chans url log].
  rewrite Nav.upd_neq by lia. rewrite Ht, Nav.upd_eq.
  cbn [t_same_path t_new_url t_loc]. rewrite Hlog, <- app_assoc.
  destruct (url_eqb u2 u1); reflexivity.
Qed.

(** A popstate to another URL while a navigation waits makes that
    navigation finish without writing to the history, even once it is
    ready. *)
Theorem popstate_blocks_pending_commit (s : NavState) (u u' : Url)
  (l : LocationChange) (Hwf : wf s) (Hsp : same_path (url s) u = false)
  (Hne : u' <> u) :
  let s' := run s [Navigate u l; Popstate u'; Ready; Poll (next_id s)] in
  log s' = log s /\ tasks s' (next_id s) = None.
Proof.
  destruct (NavMore.navigate_other_path s u l Hwf Hsp)
    as (Hu & Hp & Hc & Ht & Hlog & _).
  cbv zeta. unfold run. cbn [fold_left nav_step].
  set (s1 := navigate s u l) in *.
  unfold ready_to_complete. cbn [pending chans]. rewrite Hp, Hc.
  unfold poll. cbn [tasks chans url log].
  rewrite Ht, Nav.upd_eq. cbn [t_same_path t_new_url t_loc].
  unfold url_eqb. destruct (Url_eq_dec u' u) as [E|_]; [contradiction|].
  cbn [log tasks]. split; [exact Hlog | apply Nav.upd_eq].
Qed.

(** * Further properties of the anchor-click handler *)

Module ClickMore.

Lemma find_anchor_from (nodes : list Node) (a0 : option Anchor) :
  Forall (fun n => n = OtherNode) nodes ->
  fold_left (fun a n => match n with
                        | AnchorNode el => Some el
                        | OtherNode => a
                        end) nodes a0 = a0.
Proof.
  revert a0. induction nodes as [|n nodes IH]; intros a0 H; [reflexivity|].
  inversion H as [|? ? Hn Hr]; subst. simpl. apply IH, Hr.
Qed.

(** The checks before [parse_with_base], when they all pass. *)
Ltac pass_prechecks Hdp Hb Hm Hal Hc Hs Ha Ht Hhref Hdl Hrel :=
  unfold handle_anchor_click; cbv beta iota; rewrite Hdp, Hb, Hm, Hal, Hc, Hs;
  cbn [orb negb Z.eqb]; rewrite Ha, Ht; cbn [is_empty negb orb];
  replace (is_empty (a_href _) && negb (has_attribute _ (lit "state")))
    with false
    by (destruct Hhref as [H|H];
        [destruct (a_href _); [contradiction|reflexivity]
        | rewrite H, andb_false_r; reflexivity]);
  rewrite Hdl, (existsb_str_eqb_false _ _ Hrel); cbn [orb].

End ClickMore.

(** The handler's effects are either none, or [prevent_default] followed by
    one call of the navigation callback (and then it returns [Ok]); it
    returns an [Err] only when [window().location().origin()] fails, and
    then it has no effect. *)
Theorem click_effects_shape
  (parse_with_base : str -> str -> Result Url JsValue)
  (unescape_minimal unescape : str -> str)
  (router_base : option str) (win_origin : Result str JsValue)
  (ev : MouseEvent) (effs : list Effect) (r : Result unit JsValue) :
  handle_anchor_click parse_with_base unescape_minimal unescape
    router_base win_origin ev = Returned effs r ->
  (effs = [] /\ (r = Ok tt \/ exists e, win_origin = Err e /\ r = Err e))
  \/ (exists u change, effs = [PreventDefault; NavigateCall u change]
                       /\ r = Ok tt).
Proof.
  unfold handle_anchor_click.
  destruct win_origin as [o|e];
    [|intros H; injection H as <- <-; left; split; [reflexivity | right; eauto]].
  repeat match goal with
         | |- (if ?c then _ else _) = _ -> _ => destruct c
         | |- match ?x with _ => _ end = _ -> _ => destruct x
         end;
    intros H; try discriminate H; injection H as <- <-;
    first [left; split; [reflexivity | left; reflexivity]
          | right; eexists; eexists; split; reflexivity].
Qed.

(** When the origin is known, the handler does nothing and returns [Ok] for
    a default-prevented click, a click of another button than the primary
    one, a click with no anchor on its path, and for an anchor with no
    [href] and no [state] attribute, with a [download] attribute, with a
    [rel] token [external], or whose resolved URL has another origin. *)
Theorem click_bailouts
  (parse_with_base : str -> str -> Result Url JsValue)
  (unescape_minimal unescape : str -> str)
  (router_base : option str) (o : str) (ev : MouseEvent)
  (Hcase : default_prevented ev = true \/ button ev <> 0%Z
           \/ find_anchor (composed_path ev) = None
           \/ exists a, find_anchor (composed_path ev) = Some a
                /\ ((a_href a = [] /\ has_attribute a (lit "state") = false)
                    \/ has_attribute a (lit "download") = true
                    \/ In (lit "external") (rel_tokens a)
                    \/ exists u, parse_with_base (a_href a) o = Ok u
                                 /\ origin u <> o)) :
  handle_anchor_click parse_with_base unescape_minimal unescape
    router_base (Ok o) ev = Returned [] (Ok tt).
Proof.
  unfold handle_anchor_click.
  destruct (default_prevented ev || negb (button ev =? 0)%Z || meta_key ev
            || alt_key ev || ctrl_key ev || shift_key ev) eqn:Emod;
    [reflexivity|].
  repeat rewrite orb_false_iff in Emod.
  destruct Emod as [[[[[Edp Eb] _] _] _] _].
  apply negb_false_iff, Z.eqb_eq in Eb.
  destruct Hcase as [H|[H|[H|(a & Ha & H)]]];
    [congruence | contradiction | rewrite H; reflexivity|].
  rewrite Ha.
  destruct (negb (is_empty (a_target a))
            || is_empty (a_href a) && negb (has_attribute a (lit "state")))
    eqn:Eh; [reflexivity|].
  destruct H as [[Hh Hs]|H].
  - rewrite Hh, Hs in Eh. cbn [is_empty negb andb] in Eh.
    rewrite orb_true_r in Eh. discriminate Eh.
  - destruct (has_attribute a (lit "download")
              || existsb (fun p => str_eqb p (lit "external")) (rel_tokens a))
      eqn:Edl; [reflexivity|].
    apply orb_false_iff in Edl as [Edl Eext].
    destruct H as [H|[H|(u & Hp & Hou)]].
    + congruence.
    + exfalso. apply not_true_iff_false in Eext. apply Eext.
      apply existsb_exists. exists (lit "external"). split; [exact H|].
      unfold str_eqb. destruct (list_eq_dec ascii_dec _ _) as [_|n];
        [reflexivity | contradiction n; reflexivity].
    + rewrite Hp. unfold str_eqb at 1.
      destruct (list_eq_dec ascii_dec (origin u) o) as [E|_]; [contradiction|].
      reflexivity.
Qed.

(** A click that passes every check before the URL is parsed makes the
    handler panic (its [unwrap]) when [parse_with_base] fails. *)
Theorem click_parse_error_panics
  (parse_with_base : str -> str -> Result Url JsValue)
  (unescape_minimal unescape : str -> str)
  (router_base : option str) (o : str) (ev : MouseEvent) (a : Anchor)
  (e : JsValue)
  (Hdp : default_prevented ev = false) (Hb : button ev = 0%Z)
  (Hm : meta_key ev = false) (Hal : alt_key ev = false)
  (Hc : ctrl_key ev = false) (Hs : shift_key ev = false)
  (Ha : find_anchor (composed_path ev) = Some a) (Ht : a_target a = [])
  (Hhref : a_href a <> [] \/ has_attribute a (lit "state") = true)
  (Hdl : has_attribute a (lit "download") = false)
  (Hrel : ~ In (lit "external") (rel_tokens a))
  (Hp : parse_with_base (a_href a) o = Err e) :
  handle_anchor_click parse_with_base unescape_minimal unescape
    router_base (Ok o) ev = Panicked.
Proof.
  ClickMore.pass_prechecks Hdp Hb Hm Hal Hc Hs Ha Ht Hhref Hdl Hrel.
  rewrite Hp. reflexivity.
Qed.

(** With nested anchors, the handler uses the last anchor of the event's
    composed path, i.e. the outermost one. *)
Theorem click_outermost_anchor (l1 l2 : list Node) (a : Anchor)
  (Hl2 : Forall (fun n => n = OtherNode) l2) :
  find_anchor (l1 ++ AnchorNode a :: l2) = Some a.
Proof.
  unfold find_anchor. rewrite fold_left_app. simpl.
  apply ClickMore.find_anchor_from, Hl2.
Qed.

(** For a click that passes every other check, with a same-origin URL, the
    navigation callback is called exactly when no router base is set, the
    base is empty, the unescaped path is empty, or the unescaped path
    starts with the base. *)
Theorem click_base_check_iff
  (parse_with_base : str -> str -> Result Url JsValue)
  (unescape_minimal unescape : str -> str)
  (router_base : option str) (o : str) (ev : MouseEvent) (a : Anchor)
  (u : Url)
  (Hdp : default_prevented ev = false) (Hb : button ev = 0%Z)
  (Hm : meta_key ev = false) (Hal : alt_key ev = false)
  (Hc : ctrl_key ev = false) (Hs : shift_key ev = false)
  (Ha : find_anchor (composed_path ev) = Some a) (Ht : a_target a = [])
  (Hhref : a_href a <> [] \/ has_attribute a (lit "state") = true)
  (Hdl : has_attribute a (lit "download") = false)
  (Hrel : ~ In (lit "external") (rel_tokens a))
  (Hp : parse_with_base (a_href a) o = Ok u) (Hou : origin u = o) :
  nav_calls (handle_anchor_click parse_with_base unescape_minimal unescape
               router_base (Ok o) ev) = 1
  <-> match router_base with
      | None => True
      | Some b => b = [] \/ unescape_minimal (path u) = []
                  \/ starts_with (unescape_minimal (path u)) b = true
      end.
Proof.
  ClickMore.pass_prechecks Hdp Hb Hm Hal Hc Hs Ha Ht Hhref Hdl Hrel.
  rewrite Hp, Hou.
  unfold str_eqb at 1. destruct (list_eq_dec ascii_dec o o) as [_|n];
    [|contradiction n; reflexivity].
  cbn [negb orb].
  destruct router_base as [b|]; [|split; reflexivity].
  destruct b as [|cb b]; [split; auto|].
  destruct (unescape_minimal (path u)) as [|cp p]; [split; auto|].
  cbn [is_empty negb andb].
  destruct (starts_with (cp :: p) (cb :: b)) eqn:E; cbn [negb].
  - split; auto.
  - split; [discriminate|]. intros [H|[H|H]]; discriminate.
Qed.

(** * Concrete instances of the further properties *)

(** [//a/] with the slash omitted normalises to [a/]. *)
Lemma normalize_omit_no_leading_slash_witness :
  normalize (lit "//a/") true = ["a"; "/"]%char /\ "a"%char <> slash.
Proof.
  split; [reflexivity|].
  apply (normalize_omit_no_leading_slash (lit "//a/") "a"%char ["/"%char]).
  reflexivity.
Defined.

(** Path [/x] under base [/app], with and without a [from]. *)
Lemma resolve_path_absolute_ignores_from_witness :
  resolve_path (lit "/app") (lit "/x") (Some (lit "/other"))
  = resolve_path (lit "/app") (lit "/x") None.
Proof.
  apply (resolve_path_absolute_ignores_from (lit "/app") (lit "/x") (lit "/other")).
  reflexivity.
Defined.

(** A base [?q] gives a result starting with [?]. *)
Lemma resolve_path_leading_char_witness :
  exists c t, resolve_path (lit "?q") (lit "x") None = c :: t
              /\ (c = slash \/ c = "#"%char \/ c = "?"%char).
Proof.
  apply (resolve_path_leading_char (lit "?q") (lit "x") None). reflexivity.
Defined.

(** Path [x] from [/other] under base [/app]. *)
Lemma resolve_path_under_base_witness :
  starts_with (resolve_path (lit "/app") (lit "x") (Some (lit "/other")))
    (normalize (lit "/app") false) = true.
Proof.
  apply (resolve_path_under_base (lit "/app") (lit "x") (Some (lit "/other"))).
  reflexivity.
Defined.

(** Path [x] from [/other] under base [/app] resolves to [/app/other/x]. *)
Lemma resolve_path_from_outside_base_witness :
  resolve_path (lit "/app") (lit "x") (Some (lit "/other"))
  = normalize (lit "/app") false ++ normalize (lit "/other") false
    ++ normalize (lit "x") false
  /\ resolve_path (lit "/app") (lit "x") (Some (lit "/other")) = lit "/app/other/x".
Proof.
  split; [|reflexivity].
  apply (resolve_path_from_outside_base (lit "/app") (lit "x") (lit "/other"));
    reflexivity.
Defined.

(** Stack [/], navigation to [/a], popstate back to [/]. *)
Lemma complete_navigation_then_back_witness :
  let s := mkPopState (url_of_path "/") [url_of_path "/"] false in
  let loc := mkLocationChange (lit "/a") false true None in
  let parse := fun v => mkUrl (lit "https://leptos.dev") v [] [] [] in
  is_back (on_popstate (snd (browser_complete_navigation s loc
                               (Ok (url_of_path "/a"))))
             (Ok (url_of_path "/"))) = true
  /\ is_back (on_popstate
       (snd (hash_complete_navigation parse s loc (Ok (url_of_path "/a"))))
       (Ok (url_of_path "/"))) = true.
Proof.
  intros s loc parse.
  apply (complete_navigation_then_back parse s [] (url_of_path "/")
           (url_of_path "/a") loc).
  reflexivity.
Defined.

(** Stack [/a, /b, /c]: back to [/b] is recognised, then back to [/a] is
    not. *)
Lemma popstate_second_back_missed_witness :
  let s := mkPopState (url_of_path "/c")
             (map url_of_path ["/a"; "/b"; "/c"]%string) false in
  is_back (on_popstate s (Ok (url_of_path "/b"))) = true
  /\ is_back (on_popstate (on_popstate s (Ok (url_of_path "/b")))
                (Ok (url_of_path "/a"))) = false.
Proof.
  intros s.
  apply (popstate_second_back_missed s [] (url_of_path "/a") (url_of_path "/b")
           (url_of_path "/c")).
  - reflexivity.
  - vm_compute. discriminate.
Defined.

(** From [/], a navigation to [/a], made ready and polled, is logged. *)
Lemma navigation_commits_when_ready_witness :
  let l := mkLocationChange (lit "/a") false true None in
  log (run (nav_init (url_of_path "/"))
         [Navigate (url_of_path "/a") l; Ready; Poll 0]) = [(0, l)].
Proof.
  intros l.
  apply (navigation_commits_when_ready (nav_init (url_of_path "/"))
           (url_of_path "/a") l).
  - apply Nav.wf_init.
  - vm_compute. reflexivity.
Defined.

(** From [/], two navigations to [/a]: both are logged, the second first. *)
Lemma same_path_navigation_keeps_pending_witness :
  let l1 := mkLocationChange (lit "/a") false true None in
  let l2 := mkLocationChange (lit "/a") true true None in
  log (run (nav_init (url_of_path "/"))
         [Navigate (url_of_path "/a") l1; Navigate (url_of_path "/a") l2;
          Ready; Poll 0]) = [(1, l2); (0, l1)].
Proof.
  intros l1 l2.
  etransitivity;
    [exact (same_path_navigation_keeps_pending (nav_init (url_of_path "/"))
              (url_of_path "/a") (url_of_path "/a") l1 l2 (Nav.wf_init _)
              ltac:(vm_compute; reflexivity) ltac:(vm_compute; reflexivity))|].
  vm_compute. reflexivity.
Defined.

(** From [/], a navigation to [/a] interrupted by a popstate to [/b]. *)
Lemma popstate_blocks_pending_commit_witness :
  let l := mkLocationChange (lit "/a") false true None in
  let s' := run (nav_init (url_of_path "/"))
              [Navigate (url_of_path "/a") l; Popstate (url_of_path "/b");
               Ready; Poll 0] in
  log s' = [] /\ tasks s' 0 = None.
Proof.
  intros l.
  apply (popstate_blocks_pending_commit (nav_init (url_of_path "/"))
           (url_of_path "/a") (url_of_path "/b") l (Nav.wf_init _)).
  - vm_compute. reflexivity.
  - vm_compute. discriminate.
Defined.

(** A default-prevented click returns [Ok] with no effect. *)
Lemma click_effects_shape_witness :
  let a := mkAnchor (lit "https://leptos.dev/app/x") [] [] None None in
  let ev := mkMouseEvent true 0 false false false false [AnchorNode a] in
  (@nil Effect = [] /\ (@Ok unit JsValue tt = Ok tt
               \/ exists e, @Ok str JsValue (lit "https://leptos.dev") = Err e
                            /\ @Ok unit JsValue tt = Err e))
  \/ (exists u change, @nil Effect = [PreventDefault; NavigateCall u change]
                       /\ @Ok unit JsValue tt = Ok tt).
Proof.
  intros a ev.
  apply (click_effects_shape parse_on_origin (fun x => x) (fun x => x)
           (Some (lit "/app")) (Ok (lit "https://leptos.dev")) ev).
  reflexivity.
Defined.

(** An anchor with a [download] attribute. *)
Lemma click_bailouts_witness :
  let a := mkAnchor (lit "https://leptos.dev/app/x") []
             [(lit "download", [])] None None in
  let ev := mkMouseEvent false 0 false false false false [AnchorNode a] in
  handle_anchor_click parse_on_origin (fun x => x) (fun x => x)
    (Some (lit "/app")) (Ok (lit "https://leptos.dev")) ev = Returned [] (Ok tt).
Proof.
  intros a ev.
  apply (click_bailouts parse_on_origin (fun x => x) (fun x => x)
           (Some (lit "/app")) (lit "https://leptos.dev") ev).
  right; right; right. exists a. split; [reflexivity|].
  right; left. reflexivity.
Defined.

(** A plain click whose URL cannot be parsed. *)
Lemma click_parse_error_panics_witness :
  let a := mkAnchor (lit "bad") [] [] None None in
  let ev := mkMouseEvent false 0 false false false false [AnchorNode a] in
  handle_anchor_click (fun _ _ => Err (lit "invalid URL")) (fun x => x)
    (fun x => x) None (Ok (lit "https://leptos.dev")) ev = Panicked.
Proof.
  intros a ev.
  apply (click_parse_error_panics (fun _ _ => Err (lit "invalid URL"))
           (fun x => x) (fun x => x) None (lit "https://leptos.dev") ev a
           (lit "invalid URL")); try reflexivity.
  - left. discriminate.
  - vm_compute. intros [H | []]. discriminate.
Defined.

(** An anchor inside another anchor: the outer one is used. *)
Lemma click_outermost_anchor_witness :
  let inner := mkAnchor (lit "/inner") [] [] None None in
  let outer := mkAnchor (lit "/outer") [] [] None None in
  find_anchor ([AnchorNode inner; OtherNode] ++ AnchorNode outer :: [OtherNode])
  = Some outer.
Proof.
  intros inner outer.
  apply click_outermost_anchor. repeat constructor.
Defined.

(** Base [/app], an anchor to [/other]: no navigation. *)
Lemma click_base_check_iff_witness :
  let a := mkAnchor (lit "https://leptos.dev/other") [] [] None None in
  let ev := mkMouseEvent false 0 false false false false [AnchorNode a] in
  nav_calls (handle_anchor_click parse_on_origin (fun x => x) (fun x => x)
               (Some (lit "/app")) (Ok (lit "https://leptos.dev")) ev) = 1
  <-> (lit "/app" = [] \/ lit "/other" = []
       \/ starts_with (lit "/other") (lit "/app") = true).
Proof.
  intros a ev.
  apply (click_base_check_iff parse_on_origin (fun x => x) (fun x => x)
           (Some (lit "/app")) (lit "https://leptos.dev") ev a
           (mkUrl (lit "https://leptos.dev") (lit "/other") [] [] []));
    try reflexivity.
  - left. discriminate.
  - vm_compute. intros [H | []]. discriminate.
Defined.
